(** * Sudoku: the puzzle engine and the session commands of [sudoku.py]

    A shallow embedding of the model and generator part of the program
    ([valid], [solve], [unique_solution], [generate_sudoku], [new_game],
    [is_complete]) and of the command part of the game loop
    ([SudokuState.clone], [Game.push_undo], [Game.undo], [Game.hint], the
    key dispatch of [Game.game_loop], the key loop of [show_settings]),
    followed by the properties proved about them.

    Conventions.
    - A grid is a Python list of lists of ints: [list (list Z)].  Row and
      column indices come from [range(9)] and are naturals.
    - Reading [grid[r][c]] outside the lists raises [IndexError] in Python.
      The accessors below are total (they read 0, resp. write nothing,
      there); every statement about them is made for 9x9 grids and indices
      below 9, where no access is out of range.
    - The module [random] is a global generator: it is modelled by a state
      of an abstract type threaded through the calls ([Random]), with the
      guarantees of [random.sample], [random.shuffle] and [random.choice]
      stated apart ([RandomLaws]).
    - The recursive searches are given the depth they can reach on a 9x9
      grid ([max_depth]); a result [None] stands for a search cut short by
      that bound, and is shown never to occur. *)

From stdpp Require Import base numbers list option strings pretty sorting.
From Stdlib Require Import ZArith Lia ZifyNat PrimFloat Ascii.

(** ** Grids *)

Abbreviation Grid := (list (list Z)).

(** [grid[r][c]] *)
Definition cell (g : Grid) (r c : nat) : Z :=
  default 0%Z (g !! r ≫= (.!! c)).

(** [grid[r][c] = v] *)
Definition set_cell (g : Grid) (r c : nat) (v : Z) : Grid :=
  alter (<[c := v]>) r g.

(** [range(1,10)] *)
Definition digits : list Z := [1; 2; 3; 4; 5; 6; 7; 8; 9]%Z.

(** [[(r, c) for r in range(9) for c in range(9)]], which is also the order
    in which the nested [for r ... for c ...] loops visit the cells. *)
Definition all_cells : list (nat * nat) :=
  r ← seq 0 9; c ← seq 0 9; [(r, c)].

(** [[[0]*9 for _ in range(9)]] *)
Definition empty_grid : Grid := replicate 9 (replicate 9 0%Z).

(** The shape every grid of the program has. *)
Definition grid9 {A} (g : list (list A)) : Prop :=
  length g = 9 ∧ Forall (λ row, length row = 9) g.

(** ** [valid] *)

Definition valid (g : Grid) (r c : nat) (n : Z) : bool :=
  if existsb (λ i, (cell g r i =? n)%Z || (cell g i c =? n)%Z) (seq 0 9)
  then false
  else
    let br := 3 * (r / 3) in
    let bc := 3 * (c / 3) in
    if existsb (λ i, existsb (λ j, (cell g (br + i) (bc + j) =? n)%Z) (seq 0 3))
         (seq 0 3)
    then false
    else true.

(** The first cell holding 0 in the order of the two nested loops of [solve]
    and of [dfs]. *)
Definition find_empty (g : Grid) : option (nat * nat) :=
  find (λ rc, (cell g rc.1 rc.2 =? 0)%Z) all_cells.

(** ** The random generator *)

Class Random (Rng : Type) := {
  (** [random.sample(range(1,10), 9)] *)
  sample9 : Rng → list Z * Rng;
  (** [random.shuffle(cells)] *)
  shuffle : list (nat * nat) → Rng → list (nat * nat) * Rng;
  (** the index [random.choice] picks in a sequence of the given length *)
  randbelow : nat → Rng → nat * Rng
}.

Record RandomLaws `{Random Rng} : Prop := {
  sample9_perm : ∀ s, (sample9 s).1 ≡ₚ digits;
  shuffle_perm : ∀ l s, (shuffle l s).1 ≡ₚ l;
  randbelow_lt : ∀ n s, 0 < n → (randbelow n s).1 < n
}.
Arguments RandomLaws Rng {_}.

(** The depth of recursion a search can reach: one call per empty cell and
    one more that finds the grid full. *)
Definition max_depth : nat := 82.

(** ** [unique_solution] *)

(** The loop [for n in range(1,10)] of [dfs] at the empty cell [(r, c)];
    the state is the grid and the counter [solutions[0]]. *)
Fixpoint dfs_try (rec : Grid * Z → option (Grid * Z)) (r c : nat)
    (ns : list Z) (st : Grid * Z) : option (Grid * Z) :=
  match ns with
  | [] => Some st
  | n :: ns' =>
      if valid st.1 r c n then
        match rec (set_cell st.1 r c n, st.2) with
        | None => None
        | Some st1 => dfs_try rec r c ns' (set_cell st1.1 r c 0, st1.2)
        end
      else dfs_try rec r c ns' st
  end.

Fixpoint dfs (depth : nat) (st : Grid * Z) : option (Grid * Z) :=
  match depth with
  | O => None
  | S k =>
      match find_empty st.1 with
      | Some (r, c) => dfs_try (dfs k) r c digits st
      | None => Some (st.1, (st.2 + 1)%Z)
      end
  end.

Definition unique_solution (g : Grid) : option bool :=
  st ← dfs max_depth (g, 0%Z); Some (bool_decide (st.2 = 1%Z)).

(** ** Sessions *)

Record Cell := mkCell { value : Z; fixed : bool; pencil : Z }.

Record SudokuState := mkState {
  grid : list (list Cell);
  puzzle : Grid;
  solution : Grid;
  moves : Z;
  start_time : float
}.

(** [SudokuState()] *)
Definition init_state : SudokuState :=
  {| grid := replicate 9 (replicate 9 (mkCell 0 false 0));
     puzzle := empty_grid;
     solution := empty_grid;
     moves := 0;
     start_time := 0%float |}.

Definition clone (gs : SudokuState) : SudokuState :=
  {| grid := (λ row : list Cell,
                (λ c, mkCell (value c) (fixed c) (pencil c)) <$> row) <$> grid gs;
     puzzle := (λ row : list Z, row) <$> puzzle gs;
     solution := (λ row : list Z, row) <$> solution gs;
     moves := moves gs;
     start_time := start_time gs |}.

(** [gs.grid[r][c]] *)
Definition scell (gs : SudokuState) (r c : nat) : Cell :=
  default (mkCell 0 false 0) (grid gs !! r ≫= (.!! c)).

(** Assignments to the fields of [gs.grid[r][c]] and to [gs.moves]. *)
Definition set_scell (gs : SudokuState) (r c : nat) (cl : Cell) : SudokuState :=
  {| grid := alter (<[c := cl]>) r (grid gs);
     puzzle := puzzle gs;
     solution := solution gs;
     moves := moves gs;
     start_time := start_time gs |}.

Definition set_moves (gs : SudokuState) (m : Z) : SudokuState :=
  {| grid := grid gs;
     puzzle := puzzle gs;
     solution := solution gs;
     moves := m;
     start_time := start_time gs |}.

Definition is_complete (gs : SudokuState) : bool :=
  forallb (λ rc,
      let v := value (scell gs rc.1 rc.2) in
      negb ((v =? 0)%Z || negb (v =? cell (solution gs) rc.1 rc.2)%Z))
    all_cells.

(** The settings dictionary; [load_settings] fills in all four keys. *)
Record Settings := mkSettings {
  theme : string;
  ascii_only : bool;
  show_hints : bool;
  animations : bool
}.

(** The fields of [Game] the commands read or write; [cursor] and
    [status_msg] are those of its [UI] object. *)
Record Game := mkGame {
  state : SudokuState;
  undo_stack : list SudokuState;
  settings : Settings;
  cursor : Z * Z;
  status_msg : string
}.

Definition with_state (gm : Game) (gs : SudokuState) : Game :=
  {| state := gs; undo_stack := undo_stack gm; settings := settings gm;
     cursor := cursor gm; status_msg := status_msg gm |}.

Definition with_undo_stack (gm : Game) (st : list SudokuState) : Game :=
  {| state := state gm; undo_stack := st; settings := settings gm;
     cursor := cursor gm; status_msg := status_msg gm |}.

Definition with_cursor (gm : Game) (cur : Z * Z) : Game :=
  {| state := state gm; undo_stack := undo_stack gm; settings := settings gm;
     cursor := cur; status_msg := status_msg gm |}.

Definition with_status (gm : Game) (msg : string) : Game :=
  {| state := state gm; undo_stack := undo_stack gm; settings := settings gm;
     cursor := cursor gm; status_msg := msg |}.

(** [self.ui = UI(self.stdscr, self.settings)] after the settings changed:
    the new [UI] starts with an empty message and the cursor at [(0, 0)]. *)
Definition with_new_ui (gm : Game) (st : Settings) : Game :=
  {| state := state gm; undo_stack := undo_stack gm; settings := st;
     cursor := (0, 0)%Z; status_msg := "" |}.

Definition push_undo (gm : Game) : Game :=
  let stack := undo_stack gm ++ [clone (state gm)] in
  with_undo_stack gm
    (if 200 <? length stack then drop 1 stack else stack).

Definition undo (gm : Game) : Game :=
  match last (undo_stack gm) with
  | Some gs =>
      with_undo_stack (with_state gm gs)
        (take (length (undo_stack gm) - 1) (undo_stack gm))
  | None => gm
  end.

(** Key codes: [ord] of a character, and the constants of the curses
    library the loop compares with. *)
Definition ord (a : ascii) : Z := Z.of_N (N_of_ascii a).
Definition KEY_DOWN : Z := 258.
Definition KEY_UP : Z := 259.
Definition KEY_LEFT : Z := 260.
Definition KEY_RIGHT : Z := 261.
Definition KEY_BACKSPACE : Z := 263.

(** [ch in (k1, k2, ...)] *)
Definition key_in (ch : Z) (ks : list Z) : bool := existsb (Z.eqb ch) ks.

(** What one turn of the loop of [game_loop] takes from outside: the key
    [getch] returns, the reading of [time.monotonic()] should a new game
    start, and the result of the settings dialog should it open ([Some] of
    the settings it left when it reports a change). *)
Record Input := mkInput {
  key : Z;
  clock : float;
  dialog : option Settings
}.

(** The branch [Enter/Space]: commit the pencil value of the cell under the
    cursor. *)
Definition commit_pencil (gm : Game) : Game :=
  let '(cur_r, cur_c) := cursor gm in
  let r := Z.to_nat cur_r in
  let c := Z.to_nat cur_c in
  let cl := scell (state gm) r c in
  if negb (fixed cl) && negb (pencil cl =? 0)%Z then
    let gm1 := push_undo gm in
    let gs1 := set_scell (state gm1) r c (mkCell (pencil cl) (fixed cl) 0) in
    with_state gm1 (set_moves gs1 (moves gs1 + 1))
  else gm.

(** The branch [Backspace/0]: clear the cell under the cursor. *)
Definition clear (gm : Game) : Game :=
  let '(cur_r, cur_c) := cursor gm in
  let r := Z.to_nat cur_r in
  let c := Z.to_nat cur_c in
  let cl := scell (state gm) r c in
  if negb (fixed cl) && negb (value cl =? 0)%Z then
    let gm1 := push_undo gm in
    let gs1 := set_scell (state gm1) r c (mkCell 0 (fixed cl) 0) in
    with_state gm1 (set_moves gs1 (moves gs1 + 1))
  else gm.

(** The branch [1-9]: enter the digit [ch - ord('0')] in the cell under the
    cursor. *)
Definition place (ch : Z) (gm : Game) : Game :=
  let '(cur_r, cur_c) := cursor gm in
  let r := Z.to_nat cur_r in
  let c := Z.to_nat cur_c in
  let cl := scell (state gm) r c in
  if negb (fixed cl) then
    let gm1 := push_undo gm in
    let v := (ch - ord "0")%Z in
    let gs1 := set_scell (state gm1) r c (mkCell v (fixed cl) 0) in
    with_state gm1 (set_moves gs1 (moves gs1 + 1))
  else gm.

Section engine.
Context `{Random Rng}.

(** ** [solve] *)

Definition candidates (fill : bool) (s : Rng) : list Z * Rng :=
  if fill then sample9 s else (digits, s).

(** The loop [for n in ...] of [solve] at the empty cell [(r, c)]. *)
Fixpoint solve_try (rec : Grid → Rng → option (bool * Grid * Rng))
    (r c : nat) (ns : list Z) (g : Grid) (s : Rng)
    : option (bool * Grid * Rng) :=
  match ns with
  | [] => Some (false, g, s)
  | n :: ns' =>
      if valid g r c n then
        match rec (set_cell g r c n) s with
        | None => None
        | Some (true, g', s') => Some (true, g', s')
        | Some (false, g', s') => solve_try rec r c ns' (set_cell g' r c 0) s'
        end
      else solve_try rec r c ns' g s
  end.

Fixpoint solve_at (depth : nat) (fill : bool) (g : Grid) (s : Rng)
    : option (bool * Grid * Rng) :=
  match depth with
  | O => None
  | S k =>
      match find_empty g with
      | Some (r, c) =>
          let '(ns, s1) := candidates fill s in
          solve_try (solve_at k fill) r c ns g s1
      | None => Some (true, g, s)
      end
  end.

(** [solve(grid, fill)]: the value returned, the grid as the call leaves
    it, and the generator. *)
Definition solve (fill : bool) (g : Grid) (s : Rng) : option (bool * Grid * Rng) :=
  solve_at max_depth fill g s.

(** ** [generate_sudoku] *)

(** The loop [for r, c in cells] with its [break]; the state is the grid
    and [removed].  [unique_solution] runs on the copy [grid2]. *)
Fixpoint remove_cells (num_clues : Z) (cells : list (nat * nat))
    (g : Grid) (removed : Z) : option (Grid * Z) :=
  match cells with
  | [] => Some (g, removed)
  | (r, c) :: rest =>
      if bool_decide (removed >= 81 - num_clues)%Z then Some (g, removed)
      else
        let backup := cell g r c in
        let g1 := set_cell g r c 0 in
        match unique_solution g1 with
        | None => None
        | Some false => remove_cells num_clues rest (set_cell g1 r c backup) removed
        | Some true => remove_cells num_clues rest g1 (removed + 1)%Z
        end
  end.

(** The body of [generate_sudoku], returning also the final value of its
    local variable [removed]: (puzzle, sol, removed), and the generator. *)
Definition generate_sudoku_run (num_clues : Z) (s : Rng)
    : option (Grid * Grid * Z * Rng) :=
  match solve true empty_grid s with
  | None => None
  | Some (_, g, s1) =>
      let sol := g in
      let '(cells, s2) := shuffle all_cells s1 in
      match remove_cells num_clues cells g 0 with
      | None => None
      | Some (g', removed) => Some (g', sol, removed, s2)
      end
  end.

Definition generate_sudoku (num_clues : Z) (s : Rng) : option (Grid * Grid * Rng) :=
  match generate_sudoku_run num_clues s with
  | None => None
  | Some (puz, sol, _, s') => Some (puz, sol, s')
  end.

(** The default of the parameter: [def generate_sudoku(num_clues=35)]. *)
Definition default_num_clues : Z := 35.

(** A call of [generate_sudoku], with or without its argument. *)
Definition call_generate_sudoku (arg : option Z) (s : Rng)
    : option (Grid * Grid * Rng) :=
  generate_sudoku (default default_num_clues arg) s.

(** ** [new_game] *)

Definition new_game (now : float) (s : Rng) : option (SudokuState * Rng) :=
  match call_generate_sudoku None s with
  | None => None
  | Some (puz, sol, s') =>
      Some ({| grid :=
                 (λ r, (λ c, mkCell (cell puz r c) (negb (cell puz r c =? 0)%Z) 0)
                         <$> seq 0 9) <$> seq 0 9;
               puzzle := puz;
               solution := sol;
               moves := 0;
               start_time := now |}, s')
  end.

(** ** [Game.hint] *)

Definition hint (gm : Game) (s : Rng) : Game * Rng :=
  if negb (show_hints (settings gm)) then
    (with_status gm "Hints are disabled in Settings.", s)
  else
    let available_cells :=
      filter (λ rc, negb (fixed (scell (state gm) rc.1 rc.2))
                    && (value (scell (state gm) rc.1 rc.2) =? 0)%Z = true)
        all_cells in
    match available_cells with
    | [] => (with_status gm "No hints: puzzle already complete!", s)
    | _ :: _ =>
        let '(i, s') := randbelow (length available_cells) s in
        let '(r, c) := default (0, 0) (available_cells !! i) in
        let cl := scell (state gm) r c in
        let p := cell (solution (state gm)) r c in
        let gs1 := set_scell (state gm) r c (mkCell (value cl) (fixed cl) p) in
        (with_cursor
           (with_status (with_state gm gs1)
              ("Hint: try " +:+ pretty p +:+ " at (" +:+ pretty (r + 1)
                 +:+ "," +:+ pretty (c + 1) +:+ ")"))
           (Z.of_nat r, Z.of_nat c), s')
    end.

(** ** One turn of the loop of [Game.game_loop] *)

Inductive Outcome :=
  | Continue (gm : Game) (s : Rng)
  | Quit (gm : Game) (s : Rng).

Definition game_step (inp : Input) (gm : Game) (s : Rng) : option Outcome :=
  let ch := key inp in
  let '(cur_r, cur_c) := cursor gm in
  if key_in ch [ord "q"; ord "Q"] then Some (Quit gm s)
  else if key_in ch [KEY_LEFT] then
    Some (Continue (with_cursor gm (cur_r, (cur_c - 1) `mod` 9)%Z) s)
  else if key_in ch [KEY_RIGHT] then
    Some (Continue (with_cursor gm (cur_r, (cur_c + 1) `mod` 9)%Z) s)
  else if key_in ch [KEY_UP] then
    Some (Continue (with_cursor gm ((cur_r - 1) `mod` 9, cur_c)%Z) s)
  else if key_in ch [KEY_DOWN] then
    Some (Continue (with_cursor gm ((cur_r + 1) `mod` 9, cur_c)%Z) s)
  else if key_in ch [ord "n"; ord "N"] then
    match new_game (clock inp) s with
    | None => None
    | Some (gs, s') => Some (Continue (with_undo_stack (with_state gm gs) []) s')
    end
  else if key_in ch [ord "u"; ord "U"] then Some (Continue (undo gm) s)
  else if key_in ch [ord "s"; ord "S"] then
    match dialog inp with
    | Some st => Some (Continue (with_new_ui gm st) s)
    | None => Some (Continue gm s)
    end
  else if key_in ch [ord "h"; ord "H"] then
    let '(gm', s') := hint gm s in Some (Continue gm' s')
  else if key_in ch [10; 13; ord " "]%Z then Some (Continue (commit_pencil gm) s)
  else if key_in ch [KEY_BACKSPACE; 127; ord "0"]%Z then Some (Continue (clear gm) s)
  else if (ord "1" <=? ch)%Z && (ch <=? ord "9")%Z then Some (Continue (place ch gm) s)
  else Some (Continue gm s).

(** The loop itself, over the inputs of successive turns: the game when
    the loop is left by [Q], or when the inputs end. *)
Fixpoint game_loop (inps : list Input) (gm : Game) (s : Rng) : option Outcome :=
  match inps with
  | [] => Some (Continue gm s)
  | inp :: rest =>
      match game_step inp gm s with
      | None => None
      | Some (Quit gm' s') => Some (Quit gm' s')
      | Some (Continue gm' s') => game_loop rest gm' s'
      end
  end.

End engine.

Arguments Continue {Rng} gm s.
Arguments Quit {Rng} gm s.

(** ** Specification vocabulary *)

(** The number of empty cells, and of clues, of a grid. *)
Definition zeros (g : Grid) : nat :=
  length (filter (λ rc, cell g rc.1 rc.2 = 0%Z) all_cells).

Definition clues (g : Grid) : nat :=
  length (filter (λ rc, cell g rc.1 rc.2 ≠ 0%Z) all_cells).

(** The grids at which [dfs] increments its counter, in the order it
    reaches them. *)
Fixpoint completions (depth : nat) (g : Grid) : list Grid :=
  match depth with
  | O => []
  | S k =>
      match find_empty g with
      | Some (r, c) =>
          n ← digits;
          if valid g r c n then completions k (set_cell g r c n) else []
      | None => [g]
      end
  end.

Definition same_unit (r c r' c' : nat) : Prop :=
  r' = r ∨ c' = c ∨ (r' / 3 = r / 3 ∧ c' / 3 = c / 3).

Definition occurs (g : Grid) (r c : nat) (n : Z) : Prop :=
  ∃ r' c', r' < 9 ∧ c' < 9 ∧ same_unit r c r' c' ∧ cell g r' c' = n.

Definition occurs_elsewhere (g : Grid) (r c : nat) (n : Z) : Prop :=
  ∃ r' c', r' < 9 ∧ c' < 9 ∧ (r', c') ≠ (r, c) ∧ same_unit r c r' c'
           ∧ cell g r' c' = n.

Definition fits (s : Grid) (r c : nat) : Prop :=
  (1 ≤ cell s r c ≤ 9)%Z ∧
  ∀ r' c', r' < 9 → c' < 9 → same_unit r c r' c' → (r', c') ≠ (r, c) →
           cell s r' c' ≠ cell s r c.

Definition agrees (g s : Grid) : Prop :=
  ∀ r c, r < 9 → c < 9 → cell g r c ≠ 0%Z → cell s r c = cell g r c.

Definition fills (g s : Grid) : Prop :=
  grid9 s ∧ agrees g s ∧ ∀ r c, r < 9 → c < 9 → cell g r c = 0%Z → fits s r c.

Definition solved (s : Grid) : Prop :=
  grid9 s ∧ ∀ r c, r < 9 → c < 9 → fits s r c.

Definition completion (g s : Grid) : Prop := solved s ∧ agrees g s.

Definition consistent (g : Grid) : Prop :=
  ∀ r c, r < 9 → c < 9 → cell g r c ≠ 0%Z → fits g r c.

Definition cands_ok `{Random Rng} (fill : bool) : Prop :=
  ∀ s : Rng, (candidates fill s).1 ≡ₚ digits.

Definition solve_post `{Random Rng} (fill : bool) (g : Grid)
    (res : option (bool * Grid * Rng)) : Prop :=
  ∃ b g' s', res = Some (b, g', s') ∧
    (b = false → g' = g) ∧
    (cands_ok fill → if b then fills g g' else ∀ t, ¬ fills g t).


(** A generator that always answers in the given order: [random.sample]
    returns 1..9 ascending, [random.shuffle] leaves the list as it is and
    [random.choice] picks the first element. *)
Definition ascending : Random unit :=
  {| sample9 s := (digits, s);
     shuffle l s := (l, s);
     randbelow n s := (0, s) |}.

(** A generator that answers in reverse order and picks the last element. *)
Definition descending : Random unit :=
  {| sample9 s := (reverse digits, s);
     shuffle l s := (reverse l, s);
     randbelow n s := (n - 1, s) |}.

(** The grid [solve] reaches from the empty grid when it tries the digits
    in ascending order. *)
Definition first_solution : Grid :=
  [[1; 2; 3; 4; 5; 6; 7; 8; 9];
   [4; 5; 6; 7; 8; 9; 1; 2; 3];
   [7; 8; 9; 1; 2; 3; 4; 5; 6];
   [2; 1; 4; 3; 6; 5; 8; 9; 7];
   [3; 6; 5; 8; 9; 7; 2; 1; 4];
   [8; 9; 7; 2; 1; 4; 3; 6; 5];
   [5; 3; 1; 6; 4; 2; 9; 7; 8];
   [6; 4; 2; 9; 7; 8; 5; 3; 1];
   [9; 7; 8; 5; 3; 1; 6; 4; 2]]%Z.

(** The conditions of a generated pair the claims are about. *)
Definition generated (num_clues : Z) (puz sol : Grid) (removed : Z) : Prop :=
  solved sol ∧ grid9 puz ∧ agrees puz sol ∧
  unique_solution puz = Some true ∧
  Z.of_nat (zeros puz) = removed ∧
  (0 ≤ removed ≤ Z.max 0 (81 - num_clues))%Z.

(** The cell under the cursor, and the cursor being on the board. *)
Definition cursor_cell (gm : Game) : Cell :=
  scell (state gm) (Z.to_nat (cursor gm).1) (Z.to_nat (cursor gm).2).

Definition cursor_ok (gm : Game) : Prop :=
  grid9 (grid (state gm)) ∧
  (0 ≤ (cursor gm).1 < 9)%Z ∧ (0 ≤ (cursor gm).2 < 9)%Z.

(** The keys of the three editing commands. *)
Definition is_commit_key (ch : Z) : bool := key_in ch [10; 13; ord " "]%Z.
Definition is_clear_key (ch : Z) : bool :=
  key_in ch [KEY_BACKSPACE; 127; ord "0"]%Z.
Definition is_digit_key (ch : Z) : bool :=
  (ord "1" <=? ch)%Z && (ch <=? ord "9")%Z.
Definition is_edit_key (ch : Z) : bool :=
  is_commit_key ch || is_clear_key ch || is_digit_key ch.
Definition is_undo_key (ch : Z) : bool := key_in ch [ord "u"; ord "U"].

(** An editing command whose guard holds in [gm]: it changes the cell. *)
Definition mutating (inp : Input) (gm : Game) : bool :=
  let cl := cursor_cell gm in
  negb (fixed cl) &&
  ((is_commit_key (key inp) && negb (pencil cl =? 0)%Z)
   || (is_clear_key (key inp) && negb (value cl =? 0)%Z)
   || is_digit_key (key inp)).

Definition game_of {Rng} (o : @Outcome Rng) : Game :=
  match o with Continue gm _ | Quit gm _ => gm end.

(** A run of the loop in which every turn is an effective editing command,
    and the states the turns of a run start from. *)
Fixpoint all_mutating `{Random Rng} (inps : list Input) (gm : Game) (s : Rng)
    : bool :=
  match inps with
  | [] => true
  | inp :: rest =>
      mutating inp gm &&
      match game_step inp gm s with
      | Some (Continue gm' s') => all_mutating rest gm' s'
      | _ => false
      end
  end.

Fixpoint states_before `{Random Rng} (inps : list Input) (gm : Game) (s : Rng)
    : list SudokuState :=
  match inps with
  | [] => []
  | inp :: rest =>
      state gm ::
      match game_step inp gm s with
      | Some (Continue gm' s') => states_before rest gm' s'
      | _ => []
      end
  end.

(** A game as [Game.__init__] leaves it, on a given state. *)
Definition fresh_game (gs : SudokuState) : Game :=
  {| state := gs; undo_stack := [];
     settings := mkSettings "classic" false true false;
     cursor := (0, 0)%Z; status_msg := "" |}.

(** ** Rows, columns and boxes *)

(** The positions of row [r], of column [c], and of the box [(br, bc)]
    in the order the scans of [valid] read them. *)
Definition row_cells (r : nat) : list (nat * nat) := (λ c, (r, c)) <$> seq 0 9.
Definition col_cells (c : nat) : list (nat * nat) := (λ r, (r, c)) <$> seq 0 9.
Definition box_cells (br bc : nat) : list (nat * nat) :=
  i ← seq 0 3; j ← seq 0 3; [(3 * br + i, 3 * bc + j)].

(** The digits a grid holds at a list of positions. *)
Definition values (s : Grid) (ps : list (nat * nat)) : list Z :=
  (λ rc, cell s rc.1 rc.2) <$> ps.

(** ** Sessions in play *)

(** The digits on the board of a session. *)
Definition board (gs : SudokuState) : Grid :=
  (λ row : list Cell, value <$> row) <$> grid gs.

(** A session as [new_game] builds it and the commands keep it: the pair
    (puzzle, solution) is a generated one, the fixed cells are the clues of
    the puzzle, with their digits and no pencil mark. *)
Definition session_ok (gs : SudokuState) : Prop :=
  grid9 (grid gs) ∧ grid9 (puzzle gs) ∧
  completion (puzzle gs) (solution gs) ∧
  (∀ t, completion (puzzle gs) t → t = solution gs) ∧
  ∀ r c, r < 9 → c < 9 →
    fixed (scell gs r c) = negb (cell (puzzle gs) r c =? 0)%Z ∧
    (fixed (scell gs r c) = true →
       value (scell gs r c) = cell (puzzle gs) r c ∧
       pencil (scell gs r c) = 0%Z).

(** Two states of one game: same puzzle, solution and start time. *)
Definition same_game (gs gs' : SudokuState) : Prop :=
  puzzle gs' = puzzle gs ∧ solution gs' = solution gs ∧
  start_time gs' = start_time gs.

(** The invariant of the loop of [game_loop]. *)
Definition game_ok (gm : Game) : Prop :=
  (0 ≤ (cursor gm).1 < 9)%Z ∧ (0 ≤ (cursor gm).2 < 9)%Z ∧
  session_ok (state gm) ∧
  Forall (λ gs, session_ok gs ∧ same_game (state gm) gs) (undo_stack gm).

(** Runs of the loop in which no new game is started. *)
Definition is_new_game_key (ch : Z) : bool := key_in ch [ord "n"; ord "N"].

(** ** [show_settings] *)

(** The exceptions the dialog can raise. *)
Inductive Raised := TypeError | ValueError.

(** How a call of [show_settings] on the keys [getch] will return ends:
    it returns [changed], with the settings as it leaves them and the
    keys it did not read; it raises; or it has read all the keys and
    waits for the next, with its locals [sel] and [changed]. *)
Inductive Dialog :=
  | Returned (changed : bool) (st : Settings) (rest : list Z)
  | Raises (e : Raised)
  | Waiting (sel : Z) (changed : bool) (st : Settings).

Definition themes : list string := ["classic"; "high_contrast"; "green"; "blue"].

(** [themes.index(x)]: [None] stands for [ValueError]. *)
Definition index_of (x : string) (l : list string) : option nat :=
  fst <$> list_find (λ y, y = x) l.

(** [ch in (n)] where [(n)] is the int [n], not a tuple: [in] needs a
    container on its right and raises [TypeError] for an int. *)
Definition in_int (ch n : Z) : Raised + bool := inl TypeError.

(** [themes[(themes.index(settings['theme']) + d) % len(themes)]] *)
Definition shift_theme (st : Settings) (d : Z) : option string :=
  match index_of (theme st) themes with
  | None => None
  | Some i => themes !! Z.to_nat ((Z.of_nat i + d) `mod` Z.of_nat (length themes))
  end.

(** The four branches [if sel == 0: ... elif sel == 3: ...], the same
    after [KEY_LEFT] ([d = -1]) and [KEY_RIGHT] ([d = 1]). *)
Definition change_setting (sel : Z) (d : Z) (st : Settings) : Raised + Settings :=
  if (sel =? 0)%Z then
    match shift_theme st d with
    | None => inl ValueError
    | Some t => inr (mkSettings t (ascii_only st) (show_hints st) (animations st))
    end
  else if (sel =? 1)%Z then
    inr (mkSettings (theme st) (negb (ascii_only st)) (show_hints st) (animations st))
  else if (sel =? 2)%Z then
    inr (mkSettings (theme st) (ascii_only st) (negb (show_hints st)) (animations st))
  else if (sel =? 3)%Z then
    inr (mkSettings (theme st) (ascii_only st) (show_hints st) (negb (animations st)))
  else inr st.

(** The loop [while True] of [show_settings], on the keys to come. *)
Fixpoint settings_loop (keys : list Z) (sel : Z) (changed : bool)
    (st : Settings) : Dialog :=
  match keys with
  | [] => Waiting sel changed st
  | ch :: rest =>
      if key_in ch [ord "q"; ord "Q"] then Returned changed st rest
      else if key_in ch [KEY_UP] then
        settings_loop rest ((sel - 1) `mod` 4)%Z changed st
      else if key_in ch [KEY_DOWN] then
        settings_loop rest ((sel + 1) `mod` 4)%Z changed st
      else
        match in_int ch KEY_LEFT with
        | inl e => Raises e
        | inr true =>
            match change_setting sel (-1) st with
            | inl e => Raises e
            | inr st' => settings_loop rest sel true st'
            end
        | inr false =>
            if key_in ch [KEY_RIGHT; ord "l"; 10; 13]%Z then
              match change_setting sel 1 st with
              | inl e => Raises e
              | inr st' => settings_loop rest sel true st'
              end
            else settings_loop rest sel changed st
        end
  end.

(** [show_settings(stdscr, settings)]: the dictionary [idxs] is built
    first, and [themes.index] raises on an unknown theme. *)
Definition show_settings (keys : list Z) (st : Settings) : Dialog :=
  match index_of (theme st) themes with
  | None => Raises ValueError
  | Some _ => settings_loop keys 0 false st
  end.

(** The keys the dialog handles without raising. *)
Definition is_menu_key (ch : Z) : bool :=
  key_in ch [ord "q"; ord "Q"; KEY_UP; KEY_DOWN].
Definition is_quit_key (ch : Z) : bool := key_in ch [ord "q"; ord "Q"].

(** ** The order of the search *)

(** [s] comes before [t] in the order of the search: at the first cell, in
    the order of the loops, where they differ, [s] holds the smaller
    digit. *)
Definition search_lt (s t : Grid) : Prop :=
  ∃ i r c,
    all_cells !! i = Some (r, c) ∧ (cell s r c < cell t r c)%Z ∧
    ∀ j r' c', j < i → all_cells !! j = Some (r', c') →
               cell s r' c' = cell t r' c'.

(** ** Grids and games the statements are tried on *)

(** A full grid that breaks every constraint. *)
Definition ones : Grid := replicate 9 (replicate 9 1%Z).
(** A grid whose first empty cell admits no digit. *)
Definition stuck : Grid :=
  [[0; 2; 3; 4; 5; 6; 7; 8; 9];
   [1; 0; 0; 0; 0; 0; 0; 0; 0];
   [0; 0; 0; 0; 0; 0; 0; 0; 0];
   [0; 0; 0; 0; 0; 0; 0; 0; 0];
   [0; 0; 0; 0; 0; 0; 0; 0; 0];
   [0; 0; 0; 0; 0; 0; 0; 0; 0];
   [0; 0; 0; 0; 0; 0; 0; 0; 0];
   [0; 0; 0; 0; 0; 0; 0; 0; 0];
   [0; 0; 0; 0; 0; 0; 0; 0; 0]]%Z.


(** [first_solution] with its first cell cleared, and the session
    [new_game] builds from that pair. *)
Definition demo_puzzle : Grid := set_cell first_solution 0 0 0.

Definition demo_state : SudokuState :=
  {| grid :=
       (λ r, (λ c, mkCell (cell demo_puzzle r c)
                     (negb (cell demo_puzzle r c =? 0)%Z) 0)
               <$> seq 0 9) <$> seq 0 9;
     puzzle := demo_puzzle;
     solution := first_solution;
     moves := 0;
     start_time := 0%float |}.

(** The key [5], pressed with nothing else happening. *)
Definition press (ch : Z) : Input :=
  {| key := ch; clock := 0%float; dialog := None |}.

(** * Properties *)

(** Arithmetic with the divisions by 3 of the box coordinates. *)
Ltac div_lia := zify; Z.to_euclidean_division_equations; lia.

(** Splits a conjunction whose parts are hypotheses. *)
Ltac split_done := repeat (first [done | split; [done|]]).

(** ** Grids *)

Section grid_facts.
Implicit Types (g : Grid) (r c : nat) (v n : Z).

Lemma grid9_row {A} (g : list (list A)) r :
  grid9 g → r < 9 → ∃ row, g !! r = Some row ∧ length row = 9.
Proof.
  intros [Hl Hr] Hlt.
  destruct (lookup_lt_is_Some_2 g r) as [row Hrow]; [lia|].
  exists row. split; [done|].
  by eapply (Forall_lookup_1 _ _ _ _ Hr).
Qed.

Lemma grid9_set_cell g r c v : grid9 g → grid9 (set_cell g r c v).
Proof.
  intros [Hl Hr]. split.
  - unfold set_cell. by rewrite length_alter.
  - unfold set_cell. apply Forall_alter; [done|].
    intros row _ Hrow. by rewrite length_insert.
Qed.

(** Reading after writing, on a 9x9 grid. *)
Lemma cell_set_cell g r c v r' c' :
  grid9 g → r < 9 → c < 9 →
  cell (set_cell g r c v) r' c' =
    if decide (r' = r ∧ c' = c) then v else cell g r' c'.
Proof.
  intros Hg Hr Hc. unfold cell, set_cell.
  destruct (grid9_row g r Hg Hr) as (row & Hrow & Hlen).
  destruct (decide (r' = r)) as [->|Hne].
  - rewrite list_lookup_alter_eq, Hrow. simpl.
    destruct (decide (c' = c)) as [->|Hnc].
    + rewrite decide_True by done.
      by rewrite list_lookup_insert_eq by lia.
    + rewrite decide_False by tauto.
      by rewrite list_lookup_insert_ne by done.
  - rewrite list_lookup_alter_ne by done.
    by rewrite decide_False by tauto.
Qed.

Lemma cell_set_cell_eq g r c v :
  grid9 g → r < 9 → c < 9 → cell (set_cell g r c v) r c = v.
Proof. intros. rewrite cell_set_cell by done. by rewrite decide_True. Qed.

Lemma cell_set_cell_ne g r c v r' c' :
  grid9 g → r < 9 → c < 9 → (r', c') ≠ (r, c) →
  cell (set_cell g r c v) r' c' = cell g r' c'.
Proof.
  intros. rewrite cell_set_cell by done.
  rewrite decide_False; [done|]. intros [-> ->]. done.
Qed.

(** Two 9x9 grids with the same cells are the same lists. *)
Lemma grid9_ext g g' :
  grid9 g → grid9 g' →
  (∀ r c, r < 9 → c < 9 → cell g r c = cell g' r c) → g = g'.
Proof.
  intros Hg Hg' Heq. apply list_eq. intros r.
  destruct (decide (r < 9)) as [Hr|Hr].
  - destruct (grid9_row g r Hg Hr) as (row & Hrow & Hlen).
    destruct (grid9_row g' r Hg' Hr) as (row' & Hrow' & Hlen').
    rewrite Hrow, Hrow'. f_equal. apply list_eq. intros c.
    destruct (decide (c < 9)) as [Hc|Hc].
    + specialize (Heq r c Hr Hc). unfold cell in Heq.
      rewrite Hrow, Hrow' in Heq. simpl in Heq.
      destruct (lookup_lt_is_Some_2 row c) as [x Hx]; [lia|].
      destruct (lookup_lt_is_Some_2 row' c) as [x' Hx']; [lia|].
      rewrite Hx, Hx' in Heq |- *. simpl in Heq. by subst.
    + rewrite !lookup_ge_None_2 by lia. done.
  - destruct Hg as [Hl _], Hg' as [Hl' _].
    rewrite !lookup_ge_None_2 by lia. done.
Qed.

Lemma set_cell_restore g r c v :
  grid9 g → r < 9 → c < 9 →
  set_cell (set_cell g r c v) r c (cell g r c) = g.
Proof.
  intros Hg Hr Hc. apply grid9_ext; [by do 2 apply grid9_set_cell|done|].
  intros r' c' Hr' Hc'.
  rewrite cell_set_cell by (try apply grid9_set_cell; done).
  case_decide as Hd; [by destruct Hd as [-> ->]|].
  rewrite cell_set_cell by done. by rewrite decide_False.
Qed.

Lemma set_cell_undo g r c v :
  grid9 g → r < 9 → c < 9 → cell g r c = 0%Z →
  set_cell (set_cell g r c v) r c 0 = g.
Proof. intros Hg Hr Hc <-. by apply set_cell_restore. Qed.

Lemma grid9_empty : grid9 empty_grid.
Proof. split; [done|]. unfold empty_grid. repeat constructor. Qed.

Lemma cell_empty r c : cell empty_grid r c = 0%Z.
Proof.
  unfold cell, empty_grid.
  do 9 (destruct r as [|r]; [do 9 (destruct c as [|c]; [done|]); done|]).
  done.
Qed.

Lemma elem_of_all_cells r c : (r, c) ∈ all_cells ↔ r < 9 ∧ c < 9.
Proof.
  unfold all_cells. rewrite list_elem_of_bind. split.
  - intros (r' & Hin & Hr'). apply elem_of_seq in Hr'.
    apply list_elem_of_bind in Hin as (c' & Hin & Hc').
    apply elem_of_seq in Hc'. apply list_elem_of_singleton in Hin.
    simplify_eq. lia.
  - intros [Hr Hc]. exists r. split; [|apply elem_of_seq; lia].
    apply list_elem_of_bind. exists c. split; [|apply elem_of_seq; lia].
    by apply list_elem_of_singleton.
Qed.

Lemma NoDup_all_cells : NoDup all_cells.
Proof. refine (bool_decide_unpack _ _). vm_compute. exact I. Qed.

End grid_facts.

(** ** [valid] *)


Section valid_facts.
Implicit Types (g : Grid) (r c : nat) (v n : Z).

Lemma same_unit_sym r c r' c' : same_unit r c r' c' → same_unit r' c' r c.
Proof. unfold same_unit. intuition. Qed.

Lemma same_unit_refl r c : same_unit r c r c.
Proof. by left. Qed.

Lemma valid_false_occurs g r c n :
  r < 9 → c < 9 → valid g r c n = false → occurs g r c n.
Proof.
  intros Hr Hc. unfold valid.
  destruct (existsb _ (seq 0 9)) eqn:Hline.
  - intros _. apply existsb_exists in Hline as (i & Hi & Hor).
    apply in_seq in Hi. apply orb_true_iff in Hor as [Heq|Heq];
      apply Z.eqb_eq in Heq.
    + exists r, i. unfold same_unit. split_and!; auto with lia.
    + exists i, c. unfold same_unit. split_and!; auto with lia.
  - destruct (existsb _ (seq 0 3)) eqn:Hbox; [|done].
    intros _. apply existsb_exists in Hbox as (i & Hi & Hbox).
    apply existsb_exists in Hbox as (j & Hj & Heq).
    apply in_seq in Hi, Hj. apply Z.eqb_eq in Heq.
    exists (3 * (r / 3) + i), (3 * (c / 3) + j). unfold same_unit.
    split_and!; [div_lia|div_lia| |done]. right; right. div_lia.
Qed.

Lemma occurs_valid_false g r c n :
  r < 9 → c < 9 → occurs g r c n → valid g r c n = false.
Proof.
  intros Hr Hc (r' & c' & Hr' & Hc' & Hu & Heq). unfold valid.
  destruct (existsb _ (seq 0 9)) eqn:Hline; [done|].
  destruct (existsb _ (seq 0 3)) eqn:Hbox; [done|]. exfalso.
  assert (Hl : ∀ i, i < 9 → cell g r i ≠ n ∧ cell g i c ≠ n).
  { intros i Hi.
    assert (Hf : (cell g r i =? n)%Z || (cell g i c =? n)%Z = false).
    { destruct (_ || _) eqn:Hor; [|done].
      rewrite <-Hline. symmetry. apply existsb_exists. exists i.
      split; [apply in_seq; lia|done]. }
    apply orb_false_iff in Hf as [H1 H2].
    apply Z.eqb_neq in H1, H2. done. }
  destruct Hu as [->|[->|[Hbr Hbc]]].
  - by destruct (Hl c' Hc').
  - by destruct (Hl r' Hr').
  - assert (Hex : existsb (λ i, existsb (λ j,
        (cell g (3 * (r / 3) + i) (3 * (c / 3) + j) =? n)%Z) (seq 0 3))
        (seq 0 3) = true); [|cbv zeta in Hbox; congruence].
    apply existsb_exists. exists (r' - 3 * (r / 3)).
    split; [apply in_seq; div_lia|].
    apply existsb_exists. exists (c' - 3 * (c / 3)).
    split; [apply in_seq; div_lia|].
    apply Z.eqb_eq. rewrite <-Heq. f_equal; div_lia.
Qed.

(** [valid] is [True] exactly when no cell of the row, the column or the
    box of [(r, c)] holds [n]. *)
Lemma valid_true_iff g r c n :
  r < 9 → c < 9 →
  valid g r c n = true ↔
  ∀ r' c', r' < 9 → c' < 9 → same_unit r c r' c' → cell g r' c' ≠ n.
Proof.
  intros Hr Hc. split.
  - intros Hv r' c' Hr' Hc' Hu Heq.
    rewrite (occurs_valid_false g r c n) in Hv; [done..|].
    by exists r', c'.
  - intros Hall. destruct (valid g r c n) eqn:Hv; [done|].
    apply valid_false_occurs in Hv as (r' & c' & ? & ? & ? & ?); [|done..].
    by destruct (Hall r' c').
Qed.

Lemma valid_at_empty_nonzero g r c n :
  r < 9 → c < 9 → cell g r c = 0%Z → valid g r c n = true → n ≠ 0%Z.
Proof.
  intros Hr Hc H0 Hv ->.
  by apply (proj1 (valid_true_iff g r c 0 Hr Hc) Hv r c Hr Hc (same_unit_refl r c)).
Qed.

End valid_facts.

(** Claim C4, as the code has it.  For every 9x9 grid, cell [(r, c)] and
    [n], [valid] returns [False] if and only if [n] occurs in row [r], in
    column [c] or in the 3x3 box of [(r, c)], the cell [(r, c)] itself
    included; when [(r, c)] does not hold [n] (as in the calls of [solve]
    and [dfs], made on an empty cell with a digit 1..9), that is if and
    only if [n] occurs elsewhere in them. *)
Theorem valid_false_iff_occurs (g : Grid) (r c : nat) (n : Z) :
  grid9 g → r < 9 → c < 9 →
  (valid g r c n = false ↔ occurs g r c n) ∧
  (cell g r c ≠ n → (valid g r c n = false ↔ occurs_elsewhere g r c n)).
Proof.
  intros _ Hr Hc.
  assert (Hiff : valid g r c n = false ↔ occurs g r c n).
  { split; [by apply valid_false_occurs|by apply occurs_valid_false]. }
  split; [done|]. intros Hne. rewrite Hiff. split.
  - intros (r' & c' & Hr' & Hc' & Hu & Heq). exists r', c'.
    split_and!; [done..| |done|done]. intros [= -> ->]. done.
  - intros (r' & c' & Hr' & Hc' & _ & Hu & Heq). by exists r', c'.
Qed.

(** The scans of [valid] do not skip [(r, c)]: on the grid whose only
    nonzero cell is a 5 at [(0, 0)], [valid(grid, 0, 0, 5)] is [False]
    although 5 occurs nowhere else. *)
Lemma valid_counterexample :
  let g := set_cell empty_grid 0 0 5 in
  grid9 g ∧ valid g 0 0 5 = false ∧ ¬ occurs_elsewhere g 0 0 5.
Proof.
  split_and!; [apply grid9_set_cell, grid9_empty|done|].
  intros (r' & c' & Hr' & Hc' & Hne & _ & Heq).
  rewrite cell_set_cell_ne in Heq by (apply grid9_empty || lia || done).
  by rewrite cell_empty in Heq.
Qed.

(** ** The search of [unique_solution] *)

Section counting.
Context {A : Type}.
Implicit Types (l : list A) (x : A).

Lemma filter_ext_in (P Q : A → Prop) `{∀ x, Decision (P x)}
    `{∀ x, Decision (Q x)} l :
  (∀ y, y ∈ l → (P y ↔ Q y)) → filter P l = filter Q l.
Proof.
  induction l as [|a l IH]; intros Hpq; [done|].
  rewrite !filter_cons.
  rewrite IH by (intros y Hy; apply Hpq; by right).
  destruct (decide (P a)) as [Hp|Hp], (decide (Q a)) as [Hq|Hq]; try done.
  - destruct Hq. apply Hpq; [by left|done].
  - destruct Hp. apply Hpq; [by left|done].
Qed.

(** Changing a predicate at one element of a duplicate-free list changes
    the count by one. *)
Lemma length_filter_flip (P Q : A → Prop) `{∀ x, Decision (P x)}
    `{∀ x, Decision (Q x)} l x :
  NoDup l → x ∈ l → P x → ¬ Q x → (∀ y, y ≠ x → (P y ↔ Q y)) →
  length (filter P l) = S (length (filter Q l)).
Proof.
  intros Hnd Hin Hp Hq Hpq.
  induction Hnd as [|a l Hnotin Hnd IH]; [by apply elem_of_nil in Hin|].
  rewrite !filter_cons. apply elem_of_cons in Hin as [<-|Hin].
  - rewrite decide_True, decide_False by done. simpl. f_equal. f_equal.
    apply filter_ext_in. intros y Hy. apply Hpq. by intros ->.
  - specialize (IH Hin).
    assert (Hax : a ≠ x) by (by intros ->).
    destruct (decide (P a)) as [Hpa|Hpa], (decide (Q a)) as [Hqa|Hqa];
      simpl; try lia.
    + destruct Hqa. by apply Hpq.
    + destruct Hpa. by apply Hpq.
Qed.
End counting.

Section search_facts.
Implicit Types (g s : Grid) (r c : nat) (v n : Z).

Lemma find_empty_Some g r c :
  find_empty g = Some (r, c) → r < 9 ∧ c < 9 ∧ cell g r c = 0%Z.
Proof.
  intros Hf. apply find_some in Hf as [Hin Hz].
  apply list_elem_of_In, elem_of_all_cells in Hin.
  apply Z.eqb_eq in Hz. simpl in *. tauto.
Qed.

Lemma find_empty_None g r c :
  find_empty g = None → r < 9 → c < 9 → cell g r c ≠ 0%Z.
Proof.
  intros Hf Hr Hc. apply Z.eqb_neq.
  apply (find_none _ _ Hf (r, c)), list_elem_of_In, elem_of_all_cells. done.
Qed.

Lemma zeros_fill g r c v :
  grid9 g → r < 9 → c < 9 → cell g r c = 0%Z → v ≠ 0%Z →
  zeros g = S (zeros (set_cell g r c v)).
Proof.
  intros Hg Hr Hc Hz Hv. unfold zeros.
  apply (length_filter_flip _ _ _ (r, c)).
  - apply NoDup_all_cells.
  - by apply elem_of_all_cells.
  - done.
  - simpl. by rewrite cell_set_cell_eq.
  - intros [r' c'] Hne. simpl. by rewrite cell_set_cell_ne.
Qed.

Lemma zeros_clear g r c :
  grid9 g → r < 9 → c < 9 → cell g r c ≠ 0%Z →
  zeros (set_cell g r c 0) = S (zeros g).
Proof.
  intros Hg Hr Hc Hz. unfold zeros.
  apply (length_filter_flip _ _ _ (r, c)).
  - apply NoDup_all_cells.
  - by apply elem_of_all_cells.
  - simpl. by rewrite cell_set_cell_eq.
  - done.
  - intros [r' c'] Hne. simpl. by rewrite cell_set_cell_ne.
Qed.

Lemma zeros_le g : zeros g ≤ 81.
Proof.
  unfold zeros. etrans; [apply length_filter|]. done.
Qed.

Lemma zeros_full g :
  (∀ r c, r < 9 → c < 9 → cell g r c ≠ 0%Z) → zeros g = 0.
Proof.
  intros Hfull. unfold zeros.
  rewrite (filter_ext_in _ (λ _, False)).
  - by induction all_cells.
  - intros [r c] [Hr Hc]%elem_of_all_cells. simpl. split; [|done].
    by apply Hfull.
Qed.

Lemma elem_of_digits n : n ∈ digits ↔ (1 ≤ n ≤ 9)%Z.
Proof.
  unfold digits. rewrite !elem_of_cons, elem_of_nil. lia.
Qed.

Lemma NoDup_digits : NoDup digits.
Proof. refine (bool_decide_unpack _ _). vm_compute. exact I. Qed.

Lemma fills_full g s :
  grid9 g → (∀ r c, r < 9 → c < 9 → cell g r c ≠ 0%Z) →
  fills g s ↔ s = g.
Proof.
  intros Hg Hfull. split.
  - intros (Hs & Hag & _). apply grid9_ext; [done..|].
    intros r c Hr Hc. apply Hag; auto.
  - intros ->. refine (conj _ (conj _ _)); [done|by intros ????|].
    intros r c Hr Hc Hz. by destruct (Hfull r c).
Qed.

(** The step of the search: the completions of a grid with an empty cell
    [(r, c)] are those of the grids with a valid digit placed there. *)
Lemma fills_step g s r c :
  grid9 g → r < 9 → c < 9 → cell g r c = 0%Z →
  fills g s ↔
  ∃ n, n ∈ digits ∧ valid g r c n = true ∧ fills (set_cell g r c n) s.
Proof.
  intros Hg Hr Hc Hz. split.
  - intros (Hs & Hag & Hfit). exists (cell s r c).
    destruct (Hfit r c Hr Hc Hz) as [Hrange Hdiff].
    refine (conj _ (conj _ (conj _ (conj _ _)))).
    + by apply elem_of_digits.
    + apply valid_true_iff; [done..|]. intros r' c' Hr' Hc' Hu.
      destruct (decide ((r', c') = (r, c))) as [[= -> ->]|Hne]; [lia|].
      destruct (decide (cell g r' c' = 0%Z)) as [->|Hnz]; [lia|].
      rewrite <-(Hag r' c') by done. by apply Hdiff.
    + done.
    + intros r' c' Hr' Hc'. rewrite cell_set_cell by done.
      case_decide as Hd; [by destruct Hd as [-> ->]|]. by apply Hag.
    + intros r' c' Hr' Hc'. rewrite cell_set_cell by done.
      case_decide as Hd; [lia|]. by apply Hfit.
  - intros (n & Hn%elem_of_digits & Hv & Hs & Hag & Hfit).
    assert (Hsn : cell s r c = n).
    { rewrite (Hag r c Hr Hc); rewrite cell_set_cell_eq by done; [done|lia]. }
    refine (conj _ (conj _ _)); [done| |].
    + intros r' c' Hr' Hc' Hnz.
      assert (Hne : (r', c') ≠ (r, c)) by (by intros [= -> ->]).
      rewrite (Hag r' c' Hr' Hc'); rewrite cell_set_cell_ne by done; done.
    + intros r' c' Hr' Hc' Hz'.
      destruct (decide ((r', c') = (r, c))) as [[= -> ->]|Hne].
      * split; [lia|]. intros r1 c1 Hr1 Hc1 Hu Hne. rewrite Hsn.
        destruct (decide (cell g r1 c1 = 0%Z)) as [Hz1|Hnz].
        -- rewrite <-Hsn.
           assert (Hf : fits s r1 c1).
           { apply Hfit; [done..|]. by rewrite cell_set_cell_ne. }
           intros Heq. destruct Hf as [_ Hf].
           apply (Hf r c); [done..|by apply same_unit_sym|congruence|done].
        -- rewrite (Hag r1 c1 Hr1 Hc1);
             rewrite cell_set_cell_ne by done; [|done].
           by apply (proj1 (valid_true_iff g r c n Hr Hc) Hv).
      * apply Hfit; [done..|]. by rewrite cell_set_cell_ne.
Qed.

Lemma dfs_S k st :
  dfs (S k) st =
    match find_empty st.1 with
    | Some (r, c) => dfs_try (dfs k) r c digits st
    | None => Some (st.1, (st.2 + 1)%Z)
    end.
Proof. done. Qed.

Lemma completions_S k g :
  completions (S k) g =
    match find_empty g with
    | Some (r, c) =>
        n ← digits;
        if valid g r c n then completions k (set_cell g r c n) else []
    | None => [g]
    end.
Proof. done. Qed.

(** [dfs] leaves the grid as it found it and adds to the counter the
    number of grids listed by [completions]. *)
Lemma dfs_try_spec k r c g cnt ns :
  (∀ g1 cnt1, grid9 g1 → zeros g1 < k →
     dfs k (g1, cnt1) = Some (g1, (cnt1 + Z.of_nat (length (completions k g1)))%Z)) →
  grid9 g → r < 9 → c < 9 → cell g r c = 0%Z → zeros g ≤ k →
  dfs_try (dfs k) r c ns (g, cnt) =
    Some (g, (cnt + Z.of_nat (length (n ← ns;
                if valid g r c n then completions k (set_cell g r c n) else [])))%Z).
Proof.
  intros IH Hg Hr Hc Hz Hk. revert cnt.
  induction ns as [|n ns IHns]; intros cnt; rewrite ?bind_cons; simpl.
  { do 2 f_equal. lia. }
  destruct (valid g r c n) eqn:Hv.
  - rewrite IH; [|by apply grid9_set_cell|].
    2:{ pose proof (zeros_fill g r c n Hg Hr Hc Hz
          (valid_at_empty_nonzero g r c n Hr Hc Hz Hv)). lia. }
    simpl. rewrite set_cell_undo by done.
    rewrite IHns. do 2 f_equal. rewrite length_app. lia.
  - rewrite IHns. done.
Qed.

Lemma dfs_spec k g cnt :
  grid9 g → zeros g < k →
  dfs k (g, cnt) = Some (g, (cnt + Z.of_nat (length (completions k g)))%Z).
Proof.
  revert g cnt. induction k as [|k IH]; intros g cnt Hg Hk; [lia|].
  rewrite dfs_S, completions_S. cbn [fst snd].
  destruct (find_empty g) as [[r c]|] eqn:Hf.
  - apply find_empty_Some in Hf as (Hr & Hc & Hz).
    apply dfs_try_spec; auto with lia.
  - done.
Qed.

(** [completions] lists, without repetition, exactly the grids that fill
    the empty cells of [g] with digits respecting the constraints. *)
Lemma completions_spec k g :
  grid9 g → zeros g < k →
  (∀ s, s ∈ completions k g ↔ fills g s) ∧ NoDup (completions k g).
Proof.
  revert g. induction k as [|k IH]; intros g Hg Hk; [lia|].
  rewrite completions_S. destruct (find_empty g) as [[r c]|] eqn:Hf.
  - apply find_empty_Some in Hf as (Hr & Hc & Hz).
    assert (Hsub : ∀ n, valid g r c n = true →
      (∀ s, s ∈ completions k (set_cell g r c n) ↔ fills (set_cell g r c n) s)
      ∧ NoDup (completions k (set_cell g r c n))).
    { intros n Hv. apply IH; [by apply grid9_set_cell|].
      pose proof (zeros_fill g r c n Hg Hr Hc Hz
          (valid_at_empty_nonzero g r c n Hr Hc Hz Hv)). lia. }
    split.
    + intros s. rewrite (fills_step g s r c) by done.
      rewrite list_elem_of_bind. split.
      * intros (n & Hin & Hn). exists n.
        destruct (valid g r c n) eqn:Hv; [|by apply elem_of_nil in Hin].
        split_and!; [done..|]. by apply Hsub.
      * intros (n & Hn & Hv & Hfl). exists n. rewrite Hv.
        split; [|done]. by apply Hsub.
    + apply NoDup_bind; [| |apply NoDup_digits].
      * intros n1 n2 s _ _ H1 H2.
        destruct (valid g r c n1) eqn:Hv1; [|by apply elem_of_nil in H1].
        destruct (valid g r c n2) eqn:Hv2; [|by apply elem_of_nil in H2].
        apply (Hsub n1 Hv1) in H1 as (_ & Hag1 & _).
        apply (Hsub n2 Hv2) in H2 as (_ & Hag2 & _).
        pose proof (valid_at_empty_nonzero g r c n1 Hr Hc Hz Hv1).
        pose proof (valid_at_empty_nonzero g r c n2 Hr Hc Hz Hv2).
        specialize (Hag1 r c Hr Hc). specialize (Hag2 r c Hr Hc).
        rewrite cell_set_cell_eq in Hag1, Hag2 by done.
        rewrite <-Hag1, <-Hag2 by done. done.
      * intros n _. destruct (valid g r c n) eqn:Hv; [|constructor].
        by apply Hsub.
  - split.
    + intros s. rewrite list_elem_of_singleton.
      rewrite fills_full; [done..|]. intros r c. by apply find_empty_None.
    + apply NoDup_singleton.
Qed.

End search_facts.

Lemma zeros_lt_max_depth (g : Grid) : zeros g < max_depth.
Proof. pose proof (zeros_le g). unfold max_depth. lia. Qed.


(** From here on the depth bound is a name: the proofs are by induction on
    an arbitrary depth, and no tactic should unfold 82 levels of search. *)
Opaque max_depth.


(** ** [unique_solution] and [solve] *)

Section unique_facts.
Implicit Types (g s : Grid) (r c : nat) (v n : Z).

Lemma unique_solution_count g :
  grid9 g →
  unique_solution g =
    Some (bool_decide (length (completions max_depth g) = 1)).
Proof.
  intros Hg. unfold unique_solution.
  pose proof (zeros_lt_max_depth g) as Hk.
  generalize dependent max_depth. intros k Hk.
  rewrite dfs_spec by done. cbn [mbind option_bind snd].
  f_equal. apply bool_decide_ext. lia.
Qed.

Lemma length_one_unique {A} (l : list A) (P : A → Prop) :
  NoDup l → (∀ x, x ∈ l ↔ P x) →
  length l = 1 ↔ ∃ x, P x ∧ ∀ y, P y → y = x.
Proof.
  intros Hnd Hin. split.
  - destruct l as [|x [|??]]; [done| |done]. intros _. exists x. split.
    + apply Hin. by left.
    + intros y Hy%Hin. by apply list_elem_of_singleton in Hy.
  - intros (x & Hx & Huniq). destruct l as [|a [|b l]]; [|done|].
    + apply Hin in Hx. by apply elem_of_nil in Hx.
    + exfalso. apply NoDup_cons in Hnd as [Hab _]. apply Hab.
      assert (a = x) as -> by (apply Huniq, Hin; by left).
      assert (b = x) as -> by (apply Huniq, Hin; right; by left).
      by left.
Qed.

(** [unique_solution] returns [True] exactly when one grid fills [g]. *)
Lemma unique_solution_fills g :
  grid9 g →
  unique_solution g = Some true ↔ ∃ s, fills g s ∧ ∀ t, fills g t → t = s.
Proof.
  intros Hg. rewrite unique_solution_count by done.
  destruct (completions_spec max_depth g Hg (zeros_lt_max_depth g))
    as [Hin Hnd].
  rewrite <-(length_one_unique _ _ Hnd Hin).
  generalize (length (completions max_depth g)). intros m. split.
  - intros Hb. apply (bool_decide_eq_true (m = 1)). congruence.
  - intros ->. done.
Qed.

Lemma unique_solution_total g : grid9 g → is_Some (unique_solution g).
Proof. intros Hg. rewrite unique_solution_count by done. by eexists. Qed.

(** When the given cells do not clash, filling the empty cells gives a
    constraint-satisfying grid, and conversely. *)
Lemma fills_completion g s : consistent g → fills g s ↔ completion g s.
Proof.
  intros Hcons. split.
  - intros (Hs & Hag & Hfit). split; [|done]. split; [done|].
    intros r c Hr Hc.
    destruct (decide (cell g r c = 0%Z)) as [Hz|Hnz]; [by apply Hfit|].
    destruct (Hcons r c Hr Hc Hnz) as [Hrange Hdiff].
    split; [by rewrite (Hag r c)|].
    intros r' c' Hr' Hc' Hu Hne.
    destruct (decide (cell g r' c' = 0%Z)) as [Hz'|Hnz'].
    + destruct (Hfit r' c' Hr' Hc' Hz') as [_ Hd]. intros Heq.
      apply (Hd r c); [done..|by apply same_unit_sym|congruence|done].
    + rewrite (Hag r c), (Hag r' c') by done. by apply Hdiff.
  - intros ((Hs & Hfit) & Hag). split; [done|]. split; [done|].
    intros r c Hr Hc _. by apply Hfit.
Qed.

Lemma solved_consistent s : solved s → consistent s.
Proof. intros [_ Hfit] r c Hr Hc _. by apply Hfit. Qed.

Lemma solved_full s r c : solved s → r < 9 → c < 9 → cell s r c ≠ 0%Z.
Proof. intros [_ Hfit] Hr Hc. destruct (Hfit r c Hr Hc). lia. Qed.

Lemma fills_empty_solved s : fills empty_grid s ↔ solved s.
Proof.
  split.
  - intros (Hs & _ & Hfit). split; [done|]. intros r c Hr Hc.
    apply Hfit; [done..|]. apply cell_empty.
  - intros [Hs Hfit]. split; [done|]. split.
    + intros r c _ _ Hnz. by rewrite cell_empty in Hnz.
    + intros r c Hr Hc _. by apply Hfit.
Qed.

End unique_facts.

Section solve_facts.
Context `{Random Rng}.
Implicit Types (g : Grid) (r c : nat) (v n : Z) (s : Rng).

Lemma cands_ok_ascending : cands_ok false.
Proof. by intros s. Qed.

Lemma cands_ok_laws fill : RandomLaws Rng → cands_ok fill.
Proof.
  intros Hlaws s. destruct fill; simpl; [apply (sample9_perm Hlaws)|done].
Qed.

(** [solve] returns; a [False] leaves the grid as it was; and when the
    candidates are a permutation of 1..9, [True] comes with a completion
    and [False] means there is none. *)
Lemma solve_try_spec k fill r c g ns s :
  (∀ g1 s1, grid9 g1 → zeros g1 < k →
     solve_post fill g1 (solve_at k fill g1 s1)) →
  grid9 g → r < 9 → c < 9 → cell g r c = 0%Z → zeros g ≤ k →
  ∃ b g' s', solve_try (solve_at k fill) r c ns g s = Some (b, g', s') ∧
    (b = false → g' = g) ∧
    (cands_ok fill → (∀ n, n ∈ ns → n ∈ digits) →
       if b then fills g g'
       else ∀ n t, n ∈ ns → valid g r c n = true →
                   ¬ fills (set_cell g r c n) t).
Proof.
  intros IH Hg Hr Hc Hz Hk. revert s.
  induction ns as [|n ns IHns]; intros s; simpl.
  { exists false, g, s. split_and!; [done..|].
    intros _ _ n t Hn. by apply elem_of_nil in Hn. }
  destruct (valid g r c n) eqn:Hv.
  - destruct (IH (set_cell g r c n) s) as (b1 & g1 & s1 & -> & Hrest & Hsem).
    { by apply grid9_set_cell. }
    { pose proof (zeros_fill g r c n Hg Hr Hc Hz
          (valid_at_empty_nonzero g r c n Hr Hc Hz Hv)). lia. }
    destruct b1.
    + exists true, g1, s1. split_and!; [done..|].
      intros Hok Hns. apply (fills_step g g1 r c); [done..|].
      exists n. split_and!; [apply Hns; by left|done|by apply Hsem].
    + rewrite (Hrest eq_refl), set_cell_undo by done.
      destruct (IHns s1) as (b & g' & s' & -> & Hrest' & Hsem').
      exists b, g', s'. split_and!; [done..|].
      intros Hok Hns.
      assert (Hns' : ∀ n0, n0 ∈ ns → n0 ∈ digits).
      { intros n0 Hn0. apply Hns. by right. }
      specialize (Hsem' Hok Hns'). destruct b; [done|].
      intros n0 t [->|Hn0]%elem_of_cons Hv0.
      * by apply Hsem.
      * by apply Hsem'.
  - destruct (IHns s) as (b & g' & s' & -> & Hrest' & Hsem').
    exists b, g', s'. split_and!; [done..|].
    intros Hok Hns.
    assert (Hns' : ∀ n0, n0 ∈ ns → n0 ∈ digits).
    { intros n0 Hn0. apply Hns. by right. }
    specialize (Hsem' Hok Hns'). destruct b; [done|].
    intros n0 t [->|Hn0]%elem_of_cons Hv0; [congruence|].
    by apply Hsem'.
Qed.

Lemma solve_at_spec k fill g s :
  grid9 g → zeros g < k → solve_post fill g (solve_at k fill g s).
Proof.
  revert g s. induction k as [|k IH]; intros g s Hg Hk; [lia|].
  simpl. destruct (find_empty g) as [[r c]|] eqn:Hf.
  - apply find_empty_Some in Hf as (Hr & Hc & Hz).
    destruct (candidates fill s) as [ns s1] eqn:Hcand.
    destruct (solve_try_spec k fill r c g ns s1 IH)
      as (b & g' & s' & Heq & Hrest & Hsem); [done..|lia|].
    exists b, g', s'. split_and!; [done..|].
    intros Hok. pose proof (Hok s) as Hperm. rewrite Hcand in Hperm.
    simpl in Hperm.
    assert (Hsub : ∀ n, n ∈ ns → n ∈ digits).
    { intros n Hn. by rewrite <-Hperm. }
    specialize (Hsem Hok Hsub). destruct b; [done|].
    intros t Ht. apply (fills_step g t r c) in Ht as (n & Hn & Hv & Ht);
      [|done..].
    apply (Hsem n t); [by rewrite Hperm|done..].
  - exists true, g, s. split_and!; [done..|].
    intros _. apply fills_full; [done| |done].
    intros r c. by apply find_empty_None.
Qed.

Lemma solve_spec fill g s : grid9 g → solve_post fill g (solve fill g s).
Proof.
  intros Hg. apply solve_at_spec; [done|apply zeros_lt_max_depth].
Qed.

End solve_facts.

(** ** [generate_sudoku] *)

Lemma ascending_laws : @RandomLaws unit ascending.
Proof.
  split.
  - done.
  - done.
  - intros n s Hn. simpl. lia.
Qed.

Lemma descending_laws : @RandomLaws unit descending.
Proof.
  split.
  - intros s. simpl. apply reverse_Permutation.
  - intros l s. simpl. apply reverse_Permutation.
  - intros n s Hn. simpl. lia.
Qed.

(** Sudoku grids exist: the run of [solve] on the empty grid. *)
Lemma first_solution_found :
  solve (H := ascending) false empty_grid tt = Some (true, first_solution, tt).
Proof. vm_compute. reflexivity. Qed.

Lemma solved_first_solution : solved first_solution.
Proof.
  apply fills_empty_solved.
  destruct (solve_spec (H := ascending) false empty_grid tt grid9_empty)
    as (b & g' & s' & Heq & _ & Hsem).
  rewrite first_solution_found in Heq.
  assert (b = true ∧ g' = first_solution) as [-> ->].
  { split; congruence. }
  apply Hsem, cands_ok_ascending.
Qed.



Section generate_facts.
Context `{Random Rng}.
Implicit Types (g sol puz : Grid) (r c : nat) (v n : Z) (s : Rng).

Lemma zeros_clues g : zeros g + clues g = 81.
Proof.
  unfold zeros, clues. rewrite <-length_app.
  by rewrite (filter_app_complement (λ rc, cell g rc.1 rc.2 = 0%Z) all_cells).
Qed.

Lemma agrees_refl g : agrees g g.
Proof. by intros r c _ _ _. Qed.

Lemma agrees_clear g sol r c :
  grid9 g → r < 9 → c < 9 → agrees g sol → agrees (set_cell g r c 0) sol.
Proof.
  intros Hg Hr Hc Hag r' c' Hr' Hc'. rewrite cell_set_cell by done.
  case_decide; [done|]. by apply Hag.
Qed.

Lemma agrees_solved_consistent g sol : solved sol → agrees g sol → consistent g.
Proof.
  intros [_ Hfit] Hag r c Hr Hc Hnz.
  destruct (Hfit r c Hr Hc) as [Hrange Hdiff].
  rewrite (Hag r c Hr Hc Hnz) in Hrange, Hdiff. split; [done|].
  intros r' c' Hr' Hc' Hu Hne.
  destruct (decide (cell g r' c' = 0%Z)) as [->|Hnz']; [lia|].
  rewrite <-(Hag r' c') by done. by apply Hdiff.
Qed.

Lemma unique_solution_solved sol : solved sol → unique_solution sol = Some true.
Proof.
  intros Hsol. assert (Hg : grid9 sol) by apply Hsol.
  apply unique_solution_fills; [done|]. exists sol.
  assert (Hfull : ∀ r c, r < 9 → c < 9 → cell sol r c ≠ 0%Z).
  { intros r c. by apply solved_full. }
  split; [by apply fills_full|]. intros t Ht. by apply (fills_full sol t).
Qed.

(** The invariant of the removal loop: the grid is a 9x9 part of the
    solution with a unique completion, [removed] is its number of empty
    cells, and the cells still to visit are nonzero. *)
Lemma remove_cells_spec num_clues sol cells g removed :
  grid9 g → agrees g sol → NoDup cells →
  (∀ r c, (r, c) ∈ cells → r < 9 ∧ c < 9 ∧ cell g r c ≠ 0%Z) →
  unique_solution g = Some true →
  Z.of_nat (zeros g) = removed →
  (0 ≤ removed ≤ Z.max 0 (81 - num_clues))%Z →
  ∃ g' removed', remove_cells num_clues cells g removed = Some (g', removed') ∧
    grid9 g' ∧ agrees g' sol ∧ unique_solution g' = Some true ∧
    Z.of_nat (zeros g') = removed' ∧
    (0 ≤ removed' ≤ Z.max 0 (81 - num_clues))%Z.
Proof.
  intros Hg Hag Hnd. revert g removed Hg Hag.
  induction Hnd as [|[r c] rest Hnotin Hnd IH];
    intros g removed Hg Hag Hcells Huniq Hz Hbound.
  { exists g, removed. cbn [remove_cells]. split_done. }
  cbn [remove_cells]. case_bool_decide as Hstop.
  { exists g, removed. split_done. }
  destruct (Hcells r c) as (Hr & Hc & Hnz); [by left|].
  destruct (unique_solution_total (set_cell g r c 0)) as [b Hb].
  { by apply grid9_set_cell. }
  rewrite Hb. destruct b.
  - apply IH.
    + by apply grid9_set_cell.
    + by apply agrees_clear.
    + intros r' c' Hin.
      destruct (Hcells r' c') as (Hr' & Hc' & Hnz'); [by right|].
      split_and!; [done..|]. rewrite cell_set_cell_ne; [done..|].
      intros [= -> ->]. done.
    + done.
    + rewrite zeros_clear by done. lia.
    + lia.
  - rewrite set_cell_restore by done. apply IH; [done|done| |done|done|done].
    intros r' c' Hin. apply Hcells. by right.
Qed.

Lemma generate_sudoku_run_spec num_clues s :
  RandomLaws Rng →
  ∃ puz sol removed s',
    generate_sudoku_run num_clues s = Some (puz, sol, removed, s') ∧
    generated num_clues puz sol removed.
Proof.
  intros Hlaws. unfold generate_sudoku_run.
  destruct (solve_spec true empty_grid s grid9_empty)
    as (b & sol & s1 & -> & _ & Hsem).
  specialize (Hsem (cands_ok_laws true Hlaws)).
  destruct b.
  2:{ destruct (Hsem first_solution).
      apply fills_empty_solved, solved_first_solution. }
  apply fills_empty_solved in Hsem as Hsol.
  assert (Hg : grid9 sol) by apply Hsol.
  destruct (shuffle all_cells s1) as [cells s2] eqn:Hsh.
  assert (Hperm : cells ≡ₚ all_cells).
  { pose proof (shuffle_perm Hlaws all_cells s1) as Hp. by rewrite Hsh in Hp. }
  destruct (remove_cells_spec num_clues sol cells sol 0)
    as (puz & removed & -> & Hpg & Hpag & Hpu & Hpz & Hpb).
  - done.
  - apply agrees_refl.
  - rewrite Hperm. apply NoDup_all_cells.
  - intros r c Hin. rewrite Hperm in Hin.
    apply elem_of_all_cells in Hin as [Hr Hc].
    split_and!; [done..|]. by apply solved_full.
  - by apply unique_solution_solved.
  - rewrite zeros_full; [done|]. intros r c. by apply solved_full.
  - lia.
  - exists puz, sol, removed, s2. unfold generated. split_done.
Qed.

Lemma generated_completion num_clues puz sol removed :
  generated num_clues puz sol removed →
  completion puz sol ∧ ∀ t, completion puz t → t = sol.
Proof.
  intros (Hsol & Hg & Hag & Hu & _ & _).
  assert (Hcons : consistent puz) by by eapply agrees_solved_consistent.
  assert (Hc : completion puz sol) by done.
  split; [done|].
  apply unique_solution_fills in Hu as (s0 & _ & Huniq); [|done].
  intros t Ht. rewrite (Huniq t), (Huniq sol); [done|..];
    by apply fills_completion.
Qed.

End generate_facts.

(** The shape of a grid given as a literal, by computation. *)
Lemma grid9_literal (g : Grid) :
  forallb (λ row, length row =? 9) g && (length g =? 9) = true → grid9 g.
Proof.
  intros [Hrows Hlen%Nat.eqb_eq]%andb_true_iff. split; [done|].
  apply Forall_forall. intros row Hin.
  apply Nat.eqb_eq. by apply (proj1 (forallb_forall _ _) Hrows), list_elem_of_In.
Qed.

Section claims.
Context `{Random Rng}.

(** Claim C1.  For every [num_clues] and every state of the generator,
    [generate_sudoku] returns a pair (puzzle, solution), and
    [unique_solution] on the returned puzzle returns [True]: the solution
    is a completion of the puzzle, and its only one. *)
Theorem generate_sudoku_unique (num_clues : Z) (s : Rng) :
  RandomLaws Rng →
  ∃ puz sol s',
    generate_sudoku num_clues s = Some (puz, sol, s') ∧
    unique_solution puz = Some true ∧
    completion puz sol ∧ ∀ t, completion puz t → t = sol.
Proof.
  intros Hlaws.
  destruct (generate_sudoku_run_spec num_clues s Hlaws)
    as (puz & sol & removed & s' & Hrun & Hgen).
  exists puz, sol, s'. unfold generate_sudoku. rewrite Hrun.
  split; [done|]. split; [apply Hgen|].
  by apply (generated_completion num_clues puz sol removed).
Qed.

(** Claim C2.  For every pair (puzzle, solution) [generate_sudoku]
    returns, [solve] on (a copy of) the puzzle with [fill=False] returns
    [True] and leaves the grid cell for cell equal to the solution. *)
Theorem solve_generated_puzzle (num_clues : Z) (s s0 : Rng) :
  RandomLaws Rng →
  ∃ puz sol s',
    generate_sudoku num_clues s = Some (puz, sol, s') ∧
    ∃ s1, solve false puz s0 = Some (true, sol, s1).
Proof.
  intros Hlaws.
  destruct (generate_sudoku_run_spec num_clues s Hlaws)
    as (puz & sol & removed & s' & Hrun & Hgen).
  exists puz, sol, s'. unfold generate_sudoku. rewrite Hrun.
  split; [done|].
  destruct (generated_completion num_clues puz sol removed Hgen) as [Hc Huniq].
  destruct Hgen as (Hsol & Hg & Hag & _).
  assert (Hcons : consistent puz) by by eapply agrees_solved_consistent.
  destruct (solve_spec false puz s0 Hg) as (b & g' & s1 & -> & _ & Hsem).
  specialize (Hsem cands_ok_ascending). exists s1. destruct b.
  - rewrite (Huniq g'); [done|]. by apply fills_completion.
  - destruct (Hsem sol). by apply fills_completion.
Qed.

(** Claim C10.  On a 9x9 grid [solve] returns, in either mode and whatever
    the generator answers; and whenever it returns [False] the grid is
    exactly as it was at the call: every digit placed during the failed
    search has been reset to 0. *)
Theorem solve_false_restores (fill : bool) (g : Grid) (s : Rng) :
  grid9 g →
  (∃ b g' s', solve fill g s = Some (b, g', s')) ∧
  ∀ g' s', solve fill g s = Some (false, g', s') → g' = g.
Proof.
  intros Hg.
  destruct (solve_spec fill g s Hg) as (b & g1 & s1 & Heq & Hrest & _).
  split; [by exists b, g1, s1|].
  intros g' s' Heq'. rewrite Heq in Heq'.
  assert (b = false ∧ g1 = g') as [-> <-] by (split; congruence).
  by apply Hrest.
Qed.

(** Claim C5, as the code has it.  [generate_sudoku] commits at most
    [max(0, 81 - num_clues)] removals, so the returned puzzle has
    [81 - removed] nonzero cells, at least [min(81, num_clues)] of them
    (at least [num_clues] whenever [num_clues <= 81]); a call without the
    argument is a call with [num_clues = 35]. *)
Theorem generate_sudoku_clues (num_clues : Z) (s : Rng) :
  RandomLaws Rng →
  (∃ puz sol removed s',
     generate_sudoku_run num_clues s = Some (puz, sol, removed, s') ∧
     (0 ≤ removed ≤ Z.max 0 (81 - num_clues))%Z ∧
     Z.of_nat (clues puz) = (81 - removed)%Z ∧
     (Z.min 81 num_clues ≤ Z.of_nat (clues puz))%Z) ∧
  default_num_clues = 35%Z ∧
  call_generate_sudoku None s = generate_sudoku 35 s.
Proof.
  intros Hlaws. split; [|done].
  destruct (generate_sudoku_run_spec num_clues s Hlaws)
    as (puz & sol & removed & s' & Hrun & Hgen).
  exists puz, sol, removed, s'. split; [done|].
  destruct Hgen as (_ & _ & _ & _ & Hz & Hb).
  pose proof (zeros_clues puz). lia.
Qed.

(** Claim C6, as the code has it.  The returned puzzle has exactly
    [removed] zeroed cells and [81 - removed] nonzero ones, where
    [removed] counts the removals committed during generation and
    [removed <= max(0, 81 - num_clues)]. *)
Theorem generate_sudoku_zeroed (num_clues : Z) (s : Rng) :
  RandomLaws Rng →
  ∃ puz sol removed s',
    generate_sudoku_run num_clues s = Some (puz, sol, removed, s') ∧
    Z.of_nat (zeros puz) = removed ∧
    Z.of_nat (clues puz) = (81 - removed)%Z ∧
    (removed ≤ Z.max 0 (81 - num_clues))%Z.
Proof.
  intros Hlaws.
  destruct (generate_sudoku_run_spec num_clues s Hlaws)
    as (puz & sol & removed & s' & Hrun & Hgen).
  exists puz, sol, removed, s'. split; [done|].
  destruct Hgen as (_ & _ & _ & _ & Hz & Hb).
  pose proof (zeros_clues puz). lia.
Qed.

End claims.

(** Claim C3, as the code has it.  For every 9x9 grid whose nonzero cells
    are digits 1..9 that do not repeat in a row, column or box,
    [unique_solution] returns [True] if and only if the grid has exactly
    one constraint-satisfying completion. *)
Theorem unique_solution_iff (g : Grid) :
  grid9 g → consistent g →
  unique_solution g = Some true ↔
  ∃ s, completion g s ∧ ∀ t, completion g t → t = s.
Proof.
  intros Hg Hcons. rewrite unique_solution_fills by done. split.
  - intros (s & Hs & Huniq). exists s. split; [by apply fills_completion|].
    intros t Ht. by apply Huniq, fills_completion.
  - intros (s & Hs & Huniq). exists s. split; [by apply fills_completion|].
    intros t Ht. by apply Huniq, fills_completion.
Qed.

(** Without that condition the equivalence fails: on the full grid of ones
    [dfs] finds no empty cell and counts one solution, so
    [unique_solution] returns [True], yet no constraint-satisfying grid
    agrees with it. *)
Lemma unique_solution_counterexample :
  grid9 ones ∧ unique_solution ones = Some true ∧ ¬ ∃ s, completion ones s.
Proof.
  split; [by apply grid9_literal|]. split; [by vm_compute|].
  intros (s & [_ Hfit] & Hag).
  destruct (Hfit 0 0) as [_ Hdiff]; [lia..|].
  apply (Hdiff 0 1); [lia..|by left|done|].
  rewrite (Hag 0 0), (Hag 0 1); done || lia.
Qed.

Lemma grid9_stuck : grid9 stuck.
Proof. by apply grid9_literal. Qed.

(** [solve] does return [False] on some grids, in both modes. *)
Example solve_stuck :
  solve (H := ascending) false stuck tt = Some (false, stuck, tt).
Proof. by vm_compute. Qed.

Example solve_stuck_descending :
  solve (H := descending) true stuck tt = Some (false, stuck, tt).
Proof. by vm_compute. Qed.

Lemma solve_false_restores_witness :
  grid9 stuck ∧
  ∀ g' s', solve (H := ascending) false stuck tt = Some (false, g', s') →
           g' = stuck.
Proof.
  split; [apply grid9_stuck|].
  apply (solve_false_restores (H := ascending) false stuck tt grid9_stuck).
Defined.

Lemma generate_sudoku_unique_witness :
  ∃ puz sol s',
    generate_sudoku (H := descending) 35 tt = Some (puz, sol, s') ∧
    unique_solution puz = Some true ∧
    completion puz sol ∧ ∀ t, completion puz t → t = sol.
Proof. apply (generate_sudoku_unique (H := descending) 35 tt descending_laws). Defined.

Lemma solve_generated_puzzle_witness :
  ∃ puz sol s',
    generate_sudoku (H := descending) 35 tt = Some (puz, sol, s') ∧
    ∃ s1, solve (H := descending) false puz tt = Some (true, sol, s1).
Proof.
  apply (solve_generated_puzzle (H := descending) 35 tt tt descending_laws).
Defined.

(** With [num_clues = 82] the loop breaks at once ([0 >= -1]): no removal
    is committed, which is more than [81 - 82], and the puzzle has 81
    nonzero cells, fewer than 82. *)
Lemma generate_sudoku_clues_counterexample :
  ∃ puz sol removed s',
    generate_sudoku_run (H := ascending) 82 tt = Some (puz, sol, removed, s') ∧
    ¬ (removed ≤ 81 - 82)%Z ∧ ¬ (82 ≤ Z.of_nat (clues puz))%Z.
Proof.
  exists first_solution, first_solution, 0%Z, tt.
  split; [by vm_compute|]. split; [lia|]. by vm_compute.
Qed.

(** With [num_clues = 81] the loop breaks at once ([0 >= 0]): [removed] is
    0 and the puzzle is the full solution, with 0 zeroed cells, not
    [81 - 0]. *)
Lemma generate_sudoku_zeroed_counterexample :
  ∃ puz sol removed s',
    generate_sudoku_run (H := ascending) 81 tt = Some (puz, sol, removed, s') ∧
    Z.of_nat (zeros puz) ≠ (81 - removed)%Z.
Proof.
  exists first_solution, first_solution, 0%Z, tt.
  split; [by vm_compute|]. by vm_compute.
Qed.

(** ** The session commands *)

Section session_facts.
Context `{Random Rng}.
Implicit Types (gm : Game) (gs : SudokuState) (s : Rng) (inp : Input).

Lemma fmap_id_ext {A} (f : A → A) (l : list A) :
  (∀ x, f x = x) → f <$> l = l.
Proof. intros Hf. induction l as [|x l IH]; csimpl; [done|]. by rewrite Hf, IH. Qed.

Lemma clone_id gs : clone gs = gs.
Proof.
  destruct gs as [g p sol m t]. unfold clone. simpl. f_equal.
  - apply fmap_id_ext. intros row. apply fmap_id_ext. by intros [].
  - by apply fmap_id_ext.
  - by apply fmap_id_ext.
Qed.

Lemma undo_stack_push_undo gm :
  undo_stack (push_undo gm) =
    if 200 <? length (undo_stack gm ++ [state gm])
    then drop 1 (undo_stack gm ++ [state gm])
    else undo_stack gm ++ [state gm].
Proof. unfold push_undo. by rewrite clone_id. Qed.

Lemma state_push_undo gm : state (push_undo gm) = state gm.
Proof. done. Qed.

Lemma length_push_undo gm :
  length (undo_stack gm) ≤ 200 → length (undo_stack (push_undo gm)) ≤ 200.
Proof.
  intros Hl. rewrite undo_stack_push_undo.
  destruct (Nat.ltb_spec 200 (length (undo_stack gm ++ [state gm]))) as [Hlt|Hge].
  - rewrite length_drop, length_app. simpl. lia.
  - done.
Qed.

Lemma last_push_undo gm : last (undo_stack (push_undo gm)) = Some (state gm).
Proof.
  rewrite undo_stack_push_undo.
  destruct (Nat.ltb_spec 200 (length (undo_stack gm ++ [state gm]))) as [Hlt|Hge].
  - destruct (undo_stack gm) as [|x l]; [simpl in Hlt; lia|].
    simpl. rewrite drop_0. apply last_snoc.
  - apply last_snoc.
Qed.

Lemma undo_empty gm : undo_stack gm = [] → undo gm = gm.
Proof. intros Hnil. unfold undo. by rewrite Hnil. Qed.

Lemma length_undo gm :
  length (undo_stack (undo gm)) = length (undo_stack gm) - 1.
Proof.
  unfold undo. destruct (last (undo_stack gm)) as [gs|] eqn:Hlast.
  - simpl. rewrite length_take. lia.
  - apply last_None in Hlast. rewrite Hlast. done.
Qed.

Lemma state_undo_push gm gs :
  state (undo (with_state (push_undo gm) gs)) = state gm.
Proof.
  unfold undo. cbn [undo_stack with_state]. fold (undo_stack (push_undo gm)).
  by rewrite last_push_undo.
Qed.

(** The three editing commands, when their guard holds, are [push_undo]
    followed by assignments to the state. *)
Lemma commit_pencil_fixed gm : fixed (cursor_cell gm) = true → commit_pencil gm = gm.
Proof.
  unfold cursor_cell, commit_pencil. destruct (cursor gm) as [cur_r cur_c].
  simpl. by intros ->.
Qed.

Lemma clear_fixed gm : fixed (cursor_cell gm) = true → clear gm = gm.
Proof.
  unfold cursor_cell, clear. destruct (cursor gm) as [cur_r cur_c].
  simpl. by intros ->.
Qed.

Lemma place_fixed ch gm : fixed (cursor_cell gm) = true → place ch gm = gm.
Proof.
  unfold cursor_cell, place. destruct (cursor gm) as [cur_r cur_c].
  simpl. by intros ->.
Qed.

Lemma place_free ch gm :
  fixed (cursor_cell gm) = false →
  ∃ gs, place ch gm = with_state (push_undo gm) gs ∧
        moves gs = (moves (state gm) + 1)%Z.
Proof.
  unfold cursor_cell, place. destruct (cursor gm) as [cur_r cur_c].
  simpl. intros ->. simpl. eexists. split; [reflexivity|done].
Qed.

Lemma commit_pencil_cases gm :
  commit_pencil gm = gm ∨ ∃ gs, commit_pencil gm = with_state (push_undo gm) gs.
Proof.
  unfold commit_pencil. destruct (cursor gm) as [cur_r cur_c].
  destruct (_ && _); [right; by eexists|by left].
Qed.

Lemma clear_cases gm :
  clear gm = gm ∨ ∃ gs, clear gm = with_state (push_undo gm) gs.
Proof.
  unfold clear. destruct (cursor gm) as [cur_r cur_c].
  destruct (_ && _); [right; by eexists|by left].
Qed.

Lemma place_cases ch gm :
  place ch gm = gm ∨ ∃ gs, place ch gm = with_state (push_undo gm) gs.
Proof.
  unfold place. destruct (cursor gm) as [cur_r cur_c].
  destruct (negb _); [right; by eexists|by left].
Qed.

Lemma undo_stack_hint gm s : undo_stack (hint gm s).1 = undo_stack gm.
Proof.
  unfold hint. destruct (negb _); [done|].
  destruct (filter _ _) as [|rc l]; [done|].
  destruct (randbelow _ _) as [i s']. by destruct (default _ _).
Qed.

(** The dispatch of an editing key reaches the branch of its command. *)
Lemma game_step_commit inp gm s :
  is_commit_key (key inp) = true →
  game_step inp gm s = Some (Continue (commit_pencil gm) s).
Proof.
  unfold is_commit_key, key_in, existsb. intros Hk.
  unfold game_step. destruct (cursor gm) as [cur_r cur_c].
  fold (is_commit_key (key inp)).
  repeat (apply orb_true_iff in Hk as [Hk|Hk]); try done;
    apply Z.eqb_eq in Hk; by rewrite Hk.
Qed.

Lemma game_step_clear inp gm s :
  is_clear_key (key inp) = true →
  game_step inp gm s = Some (Continue (clear gm) s).
Proof.
  unfold is_clear_key, key_in, existsb. intros Hk.
  unfold game_step. destruct (cursor gm) as [cur_r cur_c].
  repeat (apply orb_true_iff in Hk as [Hk|Hk]); try done;
    apply Z.eqb_eq in Hk; by rewrite Hk.
Qed.

Lemma game_step_digit inp gm s :
  is_digit_key (key inp) = true →
  game_step inp gm s = Some (Continue (place (key inp) gm) s).
Proof.
  unfold is_digit_key. intros [Hlo%Z.leb_le Hhi%Z.leb_le]%andb_true_iff.
  change (ord "1") with 49%Z in Hlo. change (ord "9") with 57%Z in Hhi.
  unfold game_step. destruct (cursor gm) as [cur_r cur_c].
  unfold key_in, existsb.
  repeat match goal with
  | |- context [(key inp =? ?k)%Z] =>
      destruct (Z.eqb_spec (key inp) k) as [Heq|_];
        [let v := eval vm_compute in k in change k with v in Heq; lia|]
  end.
  cbn [orb]. 
  destruct (Z.leb_spec (ord "1") (key inp)) as [_|Hc];
    [|change (ord "1") with 49%Z in Hc; lia].
  destruct (Z.leb_spec (key inp) (ord "9")) as [_|Hc];
    [|change (ord "9") with 57%Z in Hc; lia].
  done.
Qed.

Lemma game_step_undo inp gm s :
  is_undo_key (key inp) = true →
  game_step inp gm s = Some (Continue (undo gm) s).
Proof.
  unfold is_undo_key, key_in, existsb. intros Hk.
  unfold game_step. destruct (cursor gm) as [cur_r cur_c].
  repeat (apply orb_true_iff in Hk as [Hk|Hk]); try done;
    apply Z.eqb_eq in Hk; by rewrite Hk.
Qed.

Lemma game_step_edit inp gm s :
  is_edit_key (key inp) = true →
  ∃ gm', game_step inp gm s = Some (Continue gm' s) ∧
    (gm' = commit_pencil gm ∨ gm' = clear gm ∨ gm' = place (key inp) gm).
Proof.
  unfold is_edit_key. intros [[Hk|Hk]%orb_true_iff|Hk]%orb_true_iff.
  - exists (commit_pencil gm). split; [by apply game_step_commit|by left].
  - exists (clear gm). split; [by apply game_step_clear|right; by left].
  - exists (place (key inp) gm).
    split; [by apply game_step_digit|right; by right].
Qed.

End session_facts.

Section session_claims.
Context `{Random Rng}.
Implicit Types (gm : Game) (gs : SudokuState) (s : Rng) (inp : Input).

Lemma scell_set_scell gs r c cl :
  grid9 (grid gs) → r < 9 → c < 9 → scell (set_scell gs r c cl) r c = cl.
Proof.
  intros Hg Hr Hc. unfold scell, set_scell. cbn [grid].
  destruct (grid9_row (grid gs) r Hg Hr) as (row & Hrow & Hlen).
  rewrite list_lookup_alter_eq, Hrow. simpl.
  by rewrite list_lookup_insert_eq by lia.
Qed.

Lemma scell_set_moves gs m r c : scell (set_moves gs m) r c = scell gs r c.
Proof. done. Qed.

Lemma place_value ch gm :
  cursor_ok gm → fixed (cursor_cell gm) = false →
  cursor (place ch gm) = cursor gm ∧
  cursor_cell (place ch gm) = mkCell (ch - ord "0") false 0.
Proof.
  intros (Hg & Hr & Hc) Hfree. unfold cursor_cell in *. unfold place.
  destruct (cursor gm) as [cur_r cur_c] eqn:Hcur.
  cbn [fst snd] in *. rewrite Hfree.
  cbn [negb cursor with_state push_undo with_undo_stack state].
  rewrite Hcur. split; [done|]. cbn [fst snd].
  rewrite scell_set_moves, scell_set_scell; [done|done|lia|lia].
Qed.

(** No branch of the loop lets the undo stack grow beyond 200. *)
Lemma game_step_bound inp gm s o :
  length (undo_stack gm) ≤ 200 → game_step inp gm s = Some o →
  length (undo_stack (game_of o)) ≤ 200.
Proof.
  intros Hl. unfold game_step. destruct (cursor gm) as [cur_r cur_c].
  repeat match goal with
  | |- context [if ?b then _ else _] => destruct b
  end; try (intros [= <-]; done).
  - destruct (new_game _ _) as [[gs s']|]; [|done].
    intros [= <-]. simpl. lia.
  - intros [= <-]. simpl. fold (undo_stack (undo gm)).
    rewrite length_undo. lia.
  - destruct (dialog inp); intros [= <-]; done.
  - pose proof (undo_stack_hint gm s) as Hh.
    destruct (hint gm s) as [gm' s']. intros [= <-]. simpl in *. by rewrite Hh.
  - intros [= <-]. simpl.
    destruct (commit_pencil_cases gm) as [->|[gs ->]];
      [done|by apply length_push_undo].
  - intros [= <-]. simpl.
    destruct (clear_cases gm) as [->|[gs ->]];
      [done|by apply length_push_undo].
  - intros [= <-]. simpl.
    destruct (place_cases (key inp) gm) as [->|[gs ->]];
      [done|by apply length_push_undo].
Qed.

Lemma game_loop_bound inps gm s o :
  length (undo_stack gm) ≤ 200 → game_loop inps gm s = Some o →
  length (undo_stack (game_of o)) ≤ 200.
Proof.
  revert gm s. induction inps as [|inp rest IH]; intros gm s Hl; simpl.
  { by intros [= <-]. }
  destruct (game_step inp gm s) as [o1|] eqn:Hstep; [|done].
  pose proof (game_step_bound inp gm s o1 Hl Hstep) as Hl1.
  destruct o1 as [gm1 s1|gm1 s1].
  - by apply IH.
  - by intros [= <-].
Qed.

(** An effective editing command pushes exactly one snapshot. *)
Lemma mutating_step inp gm s :
  mutating inp gm = true →
  ∃ gm1, game_step inp gm s = Some (Continue gm1 s) ∧
         undo_stack gm1 = undo_stack (push_undo gm).
Proof.
  unfold mutating. intros [Hfree%negb_true_iff Hk]%andb_true_iff.
  apply orb_true_iff in Hk as [Hk|Hk]; [apply orb_true_iff in Hk as [Hk|Hk]|].
  - apply andb_true_iff in Hk as [Hk Hp].
    rewrite game_step_commit by done. eexists. split; [done|].
    unfold commit_pencil, cursor_cell in *.
    destruct (cursor gm) as [cur_r cur_c]. simpl in *. by rewrite Hfree, Hp.
  - apply andb_true_iff in Hk as [Hk Hv].
    rewrite game_step_clear by done. eexists. split; [done|].
    unfold clear, cursor_cell in *.
    destruct (cursor gm) as [cur_r cur_c]. simpl in *. by rewrite Hfree, Hv.
  - rewrite game_step_digit by done. eexists. split; [done|].
    by destruct (place_free (key inp) gm Hfree) as (gs & -> & _).
Qed.

(** After a run of effective editing commands the stack holds the last
    200 of the snapshots it held before and the states the turns
    started from. *)
Lemma game_loop_stack inps gm s o :
  length (undo_stack gm) ≤ 200 → all_mutating inps gm s = true →
  game_loop inps gm s = Some o →
  length (states_before inps gm s) = length inps ∧
  undo_stack (game_of o) =
    drop (length (undo_stack gm) + length inps - 200)
      (undo_stack gm ++ states_before inps gm s).
Proof.
  revert gm s. induction inps as [|inp rest IH]; intros gm s Hl; simpl.
  { intros _ [= <-]. simpl. split; [done|].
    rewrite app_nil_r. replace (_ - 200) with 0 by lia. done. }
  intros [Hm Hrest]%andb_true_iff.
  destruct (mutating_step inp gm s Hm) as (gm1 & Hstep & Hstack).
  rewrite Hstep in Hrest |- *. intros Hloop.
  assert (Hl1 : length (undo_stack gm1) ≤ 200).
  { rewrite Hstack. by apply length_push_undo. }
  destruct (IH gm1 s Hl1 Hrest Hloop) as [Hlen ->].
  split; [by rewrite Hlen|].
  rewrite Hstack, undo_stack_push_undo.
  remember (undo_stack gm) as stack eqn:Hst in *. clear Hst Hstack Hl1.
  destruct (Nat.ltb_spec 200 (length (stack ++ [state gm])))
    as [Hlt|Hge]; rewrite length_app in *; simpl in *.
  - destruct stack as [|x l]; [simpl in Hlt; lia|].
    simpl in *. rewrite drop_0, length_app. simpl.
    rewrite <-app_assoc. simpl.
    match goal with
    | |- drop ?a _ = drop ?b _ =>
        replace a with (length rest) by lia;
        replace b with (S (length rest)) by lia
    end.
    done.
  - rewrite <-app_assoc. simpl. f_equal. lia.
Qed.

Lemma undo_iter_length n gm :
  length (undo_stack (Nat.iter n undo gm)) = length (undo_stack gm) - n.
Proof.
  induction n as [|n IH]; simpl; [lia|]. rewrite length_undo, IH. lia.
Qed.


(** Claim C7.  When the cell under the cursor is fixed, the commands
    place (a key 1-9), clear and commit-pencil return the game they were
    given, and so does the turn of the loop that dispatches their key:
    the value and the pencil of the cell, the move counter and the undo
    stack are all unchanged. *)
Theorem fixed_cell_immutable inp gm s :
  cursor_ok gm → fixed (cursor_cell gm) = true →
  is_edit_key (key inp) = true →
  (commit_pencil gm = gm ∧ clear gm = gm ∧ place (key inp) gm = gm) ∧
  game_step inp gm s = Some (Continue gm s).
Proof.
  intros _ Hfixed Hk.
  pose proof (commit_pencil_fixed gm Hfixed) as Hc.
  pose proof (clear_fixed gm Hfixed) as Hcl.
  pose proof (place_fixed (key inp) gm Hfixed) as Hp.
  split; [done|].
  destruct (game_step_edit inp gm s Hk) as (gm' & -> & [-> | [-> | ->]]);
    congruence.
Qed.

(** Claim C8.  From any game whose cursor is on a cell that is not fixed,
    a digit key places the digit (the cell then holds it and the move
    counter has grown by one), and a following undo key yields a state
    equal to the initial one in every field: grid, puzzle, solution, move
    counter, and the start time as well. *)
Theorem place_undo_roundtrip inp inp_u gm s :
  cursor_ok gm → fixed (cursor_cell gm) = false →
  is_digit_key (key inp) = true → is_undo_key (key inp_u) = true →
  ∃ gm1 gm2,
    game_step inp gm s = Some (Continue gm1 s) ∧
    cursor_cell gm1 = mkCell (key inp - ord "0") false 0 ∧
    moves (state gm1) = (moves (state gm) + 1)%Z ∧
    game_step inp_u gm1 s = Some (Continue gm2 s) ∧
    state gm2 = state gm.
Proof.
  intros Hok Hfree Hk Hu.
  exists (place (key inp) gm), (undo (place (key inp) gm)).
  destruct (place_value (key inp) gm Hok Hfree) as [_ Hval].
  destruct (place_free (key inp) gm Hfree) as (gs & Hplace & Hmoves).
  split; [by apply game_step_digit|]. split; [done|].
  split; [by rewrite Hplace|].
  split; [by apply game_step_undo|].
  rewrite Hplace. apply state_undo_push.
Qed.

(** Claim C9.  In a run of the loop from a game with an empty undo stack,
    the stack never holds more than 200 snapshots.  When every turn of the
    run is an effective editing command, each has pushed the state it
    started from and the oldest were evicted: the stack is the last 200 of
    those states; after 205 such commands it has exactly 200 entries, the
    first 5 states are gone, 200 undos empty it and the 201st changes
    nothing.  Undo on an empty stack returns the game as it is. *)
Theorem undo_history_bounded inps gm s o :
  undo_stack gm = [] →
  game_loop inps gm s = Some o →
  length (undo_stack (game_of o)) ≤ 200 ∧
  (all_mutating inps gm s = true →
     undo_stack (game_of o) =
       drop (length inps - 200) (states_before inps gm s) ∧
     (length inps = 205 →
        length (undo_stack (game_of o)) = 200 ∧
        undo_stack (game_of o) = drop 5 (states_before inps gm s) ∧
        undo_stack (Nat.iter 200 undo (game_of o)) = [] ∧
        undo (Nat.iter 200 undo (game_of o)) =
          Nat.iter 200 undo (game_of o))) ∧
  undo gm = gm ∧
  (∀ inp_u, is_undo_key (key inp_u) = true →
            game_step inp_u gm s = Some (Continue gm s)).
Proof.
  intros Hnil Hloop.
  assert (Hl : length (undo_stack gm) ≤ 200) by (rewrite Hnil; simpl; lia).
  split; [by eapply game_loop_bound|]. split.
  - intros Hall.
    destruct (game_loop_stack inps gm s o Hl Hall Hloop) as [Hlen Hstack].
    rewrite Hnil in Hstack. simpl in Hstack. split; [done|].
    intros H205. rewrite H205 in Hstack. simpl in Hstack.
    assert (Hlen200 : length (undo_stack (game_of o)) = 200).
    { rewrite Hstack, length_drop, Hlen, H205. done. }
    split; [done|]. split; [done|].
    assert (Hempty : undo_stack (Nat.iter 200 undo (game_of o)) = []).
    { apply length_zero_iff_nil. rewrite undo_iter_length. lia. }
    split; [done|]. by apply undo_empty.
  - pose proof (undo_empty gm Hnil) as Hundo. split; [done|].
    intros inp_u Hu. rewrite game_step_undo by done. by rewrite Hundo.
Qed.

End session_claims.

(** ** Further properties of the engine and of the session *)

Section units.
Implicit Types (g s sol : Grid) (r c : nat) (v n : Z).

(** A list of nine positions of one unit holds each digit once. *)
Lemma values_unit_perm s ps :
  solved s → length ps = 9 → NoDup ps →
  (∀ p, p ∈ ps → p.1 < 9 ∧ p.2 < 9) →
  (∀ p q, p ∈ ps → q ∈ ps → same_unit p.1 p.2 q.1 q.2) →
  values s ps ≡ₚ digits.
Proof.
  intros [_ Hfit] Hlen Hnd Hrange Hunit.
  apply submseteq_length_Permutation.
  - apply NoDup_submseteq.
    + apply NoDup_fmap_2_strong; [|done].
      intros [r c] [r' c'] Hp Hq Heq. simpl in Heq.
      destruct (decide ((r', c') = (r, c))) as [|Hne]; [done|].
      destruct (Hrange _ Hp) as [Hr Hc]. destruct (Hrange _ Hq) as [Hr' Hc'].
      destruct (Hfit r c Hr Hc) as [_ Hdiff].
      destruct (Hdiff r' c' Hr' Hc' (Hunit _ _ Hp Hq) Hne). done.
    + intros v [[r c] [-> Hp]]%list_elem_of_fmap. simpl.
      destruct (Hrange _ Hp) as [Hr Hc].
      apply elem_of_digits. by destruct (Hfit r c Hr Hc).
  - unfold values. rewrite length_fmap, Hlen. done.
Qed.

Lemma row_values_perm s r : solved s → r < 9 → values s (row_cells r) ≡ₚ digits.
Proof.
  intros Hs Hr. apply values_unit_perm; [done|done| | |].
  - apply NoDup_fmap_2; [by intros ?? [=]|apply NoDup_seq].
  - intros p [c [-> Hc%elem_of_seq]]%list_elem_of_fmap. simpl. lia.
  - intros p q [c [-> _]]%list_elem_of_fmap [c' [-> _]]%list_elem_of_fmap.
    by left.
Qed.

Lemma col_values_perm s c : solved s → c < 9 → values s (col_cells c) ≡ₚ digits.
Proof.
  intros Hs Hc. apply values_unit_perm; [done|done| | |].
  - apply NoDup_fmap_2; [by intros ?? [=]|apply NoDup_seq].
  - intros p [r [-> Hr%elem_of_seq]]%list_elem_of_fmap. simpl. lia.
  - intros p q [r [-> _]]%list_elem_of_fmap [r' [-> _]]%list_elem_of_fmap.
    right. by left.
Qed.

Lemma elem_of_box_cells br bc p :
  p ∈ box_cells br bc ↔
  ∃ i j, i < 3 ∧ j < 3 ∧ p = (3 * br + i, 3 * bc + j).
Proof.
  unfold box_cells. rewrite list_elem_of_bind. split.
  - intros (i & Hin & Hi%elem_of_seq).
    apply list_elem_of_bind in Hin as (j & Hin & Hj%elem_of_seq).
    apply list_elem_of_singleton in Hin. exists i, j. split_and!; [lia..|done].
  - intros (i & j & Hi & Hj & ->). exists i. split; [|apply elem_of_seq; lia].
    apply list_elem_of_bind. exists j. split; [|apply elem_of_seq; lia].
    by apply list_elem_of_singleton.
Qed.

Lemma box_values_perm s br bc :
  solved s → br < 3 → bc < 3 → values s (box_cells br bc) ≡ₚ digits.
Proof.
  intros Hs Hbr Hbc. apply values_unit_perm; [done| | | |].
  - done.
  - destruct br as [|[|[|?]]]; [| | |lia];
      (destruct bc as [|[|[|?]]]; [| | |lia]);
      refine (bool_decide_unpack _ _); vm_compute; exact I.
  - intros p (i & j & Hi & Hj & ->)%elem_of_box_cells. simpl. lia.
  - intros p q (i & j & Hi & Hj & ->)%elem_of_box_cells
      (i' & j' & Hi' & Hj' & ->)%elem_of_box_cells.
    right. right. cbn [fst snd]. split; div_lia.
Qed.

End units.

Section search_more.
Context `{Random Rng}.
Implicit Types (g s sol : Grid) (r c : nat) (v n : Z).

(** The loop of [solve] in ascending order stops at the first grid the
    loop of [dfs] would count. *)
Lemma solve_try_first k r c g ns (st : Rng) :
  (∀ g1 (s1 : Rng), grid9 g1 → zeros g1 < k →
     solve_at k false g1 s1 =
       Some (match completions k g1 with
             | [] => (false, g1, s1)
             | t :: _ => (true, t, s1)
             end)) →
  grid9 g → r < 9 → c < 9 → cell g r c = 0%Z → zeros g ≤ k →
  solve_try (solve_at k false) r c ns g st =
    Some (match n ← ns;
                if valid g r c n then completions k (set_cell g r c n) else []
          with
          | [] => (false, g, st)
          | t :: _ => (true, t, st)
          end).
Proof.
  intros IH Hg Hr Hc Hz Hk.
  induction ns as [|n ns IHns]; [done|].
  rewrite bind_cons. cbn [solve_try].
  destruct (valid g r c n) eqn:Hv; [|done].
  rewrite IH; [|by apply grid9_set_cell|].
  2:{ pose proof (zeros_fill g r c n Hg Hr Hc Hz
        (valid_at_empty_nonzero g r c n Hr Hc Hz Hv)). lia. }
  destruct (completions k (set_cell g r c n)) as [|t l]; [|done].
  rewrite set_cell_undo by done. done.
Qed.

Lemma solve_at_first k g (st : Rng) :
  grid9 g → zeros g < k →
  solve_at k false g st =
    Some (match completions k g with
          | [] => (false, g, st)
          | t :: _ => (true, t, st)
          end).
Proof.
  revert g st. induction k as [|k IH]; intros g st Hg Hk; [lia|].
  rewrite completions_S. cbn [solve_at].
  destruct (find_empty g) as [[r c]|] eqn:Hf; [|done].
  apply find_empty_Some in Hf as (Hr & Hc & Hz).
  cbn [candidates]. apply solve_try_first; auto with lia.
Qed.

Lemma unique_solution_completion g :
  grid9 g → consistent g →
  unique_solution g = Some true ↔
  ∃ s, completion g s ∧ ∀ t, completion g t → t = s.
Proof.
  intros Hg Hcons. rewrite unique_solution_fills by done.
  split; intros (s & Hs & Huniq); exists s;
    (split; [by apply fills_completion|]);
    intros t Ht; by apply Huniq, fills_completion.
Qed.

(** More of the solution's cells given keeps the completion unique. *)
Lemma unique_solution_mono g g' sol :
  solved sol → grid9 g → grid9 g' → agrees g sol → agrees g' g →
  unique_solution g' = Some true → unique_solution g = Some true.
Proof.
  intros Hsol Hg Hg' Hag Hsub Hu.
  assert (Hag' : agrees g' sol).
  { intros r c Hr Hc Hnz. rewrite <-(Hsub r c) by done.
    apply Hag; [done..|]. by rewrite (Hsub r c). }
  assert (Hcons : consistent g) by by eapply agrees_solved_consistent.
  assert (Hcons' : consistent g') by by eapply agrees_solved_consistent.
  apply unique_solution_completion in Hu as (s0 & Hs0 & Huniq); [|done..].
  apply unique_solution_completion; [done..|].
  assert (s0 = sol) as -> by (symmetry; by apply Huniq).
  exists sol. split; [done|]. intros t [Ht Hagt]. apply Huniq. split; [done|].
  intros r c Hr Hc Hnz. rewrite <-(Hsub r c) by done.
  apply Hagt; [done..|]. by rewrite (Hsub r c).
Qed.

End search_more.

Section removal_facts.
Context `{Random Rng}.
Implicit Types (g s sol puz : Grid) (r c : nat) (v n : Z).

(** One cell cleared in a solved grid can only be filled back as it was. *)
Lemma single_clear_unique sol r c :
  solved sol → r < 9 → c < 9 →
  unique_solution (set_cell sol r c 0) = Some true.
Proof.
  intros Hsol Hr Hc. assert (Hg : grid9 sol) by apply Hsol.
  assert (Hag : agrees (set_cell sol r c 0) sol).
  { apply agrees_clear; [done..|apply agrees_refl]. }
  apply unique_solution_completion.
  { by apply grid9_set_cell. }
  { by eapply agrees_solved_consistent. }
  exists sol. split; [done|]. intros t [[Ht Hfit] Hagt].
  apply grid9_ext; [done..|]. intros r' c' Hr' Hc'.
  assert (Hother : ∀ c0, c0 < 9 → c0 ≠ c → cell t r c0 = cell sol r c0).
  { intros c0 Hc0 Hne. rewrite (Hagt r c0), cell_set_cell_ne; try done.
    - by intros [= ->].
    - rewrite cell_set_cell_ne; [by apply solved_full|done..|by intros [= ->]]. }
  destruct (decide ((r', c') = (r, c))) as [[= -> ->]|Hne].
  - destruct (Hfit r c Hr Hc) as [Hrange Hdiff].
    apply elem_of_digits in Hrange.
    rewrite <-(row_values_perm sol r Hsol Hr) in Hrange.
    apply list_elem_of_fmap in Hrange as ([r0 c0] & Heq & Hin). simpl in Heq.
    apply list_elem_of_fmap in Hin as (c1 & [= -> ->] & Hc1%elem_of_seq).
    destruct (decide (c1 = c)) as [->|Hc1c]; [done|].
    destruct (Hdiff r c1); [done|lia|by left|by intros [= ->]|].
    rewrite Hother by (done || lia). done.
  - rewrite (Hagt r' c'), cell_set_cell_ne; try done.
    rewrite cell_set_cell_ne by done. by apply solved_full.
Qed.

Lemma agrees_trans g1 g2 g3 : agrees g1 g2 → agrees g2 g3 → agrees g1 g3.
Proof.
  intros H12 H23 r c Hr Hc Hnz. rewrite <-(H12 r c) by done.
  apply H23; [done..|]. by rewrite (H12 r c).
Qed.

Lemma agrees_clear_both g g' r c :
  grid9 g → grid9 g' → r < 9 → c < 9 → agrees g' g →
  agrees (set_cell g' r c 0) (set_cell g r c 0).
Proof.
  intros Hg Hg' Hr Hc Hag r' c' Hr' Hc'. rewrite !cell_set_cell by done.
  case_decide; [done|]. by apply Hag.
Qed.

Lemma agrees_after_clear g r c :
  grid9 g → r < 9 → c < 9 → agrees (set_cell g r c 0) g.
Proof.
  intros Hg Hr Hc r' c' Hr' Hc'. rewrite cell_set_cell by done.
  by case_decide.
Qed.

(** What the removal loop leaves: a grid cut from the one it started
    with, no fewer removals, and, when it ended with removals to spare,
    only clues whose removal was refused and would still be. *)
Lemma remove_cells_trace num_clues sol cells g removed g' removed' :
  solved sol → grid9 g → agrees g sol → NoDup cells →
  (∀ r c, (r, c) ∈ cells → r < 9 ∧ c < 9 ∧ cell g r c ≠ 0%Z) →
  remove_cells num_clues cells g removed = Some (g', removed') →
  grid9 g' ∧ agrees g' g ∧ (removed ≤ removed')%Z ∧
  ((removed' < 81 - num_clues)%Z →
   ∀ r c, (r, c) ∈ cells →
     cell g' r c = 0%Z ∨ unique_solution (set_cell g' r c 0) = Some false).
Proof.
  intros Hsol Hg Hag Hnd. revert g removed Hg Hag.
  induction Hnd as [|[r c] rest Hnotin Hnd IH];
    intros g removed Hg Hag Hcells Hrun.
  { cbn [remove_cells] in Hrun. injection Hrun as <- <-.
    split_and!; [done|apply agrees_refl|lia|]. intros _ r c Hin.
    by apply elem_of_nil in Hin. }
  cbn [remove_cells] in Hrun. case_bool_decide as Hstop.
  { injection Hrun as <- <-.
    split_and!; [done|apply agrees_refl|lia|]. intros Hlt. lia. }
  destruct (Hcells r c) as (Hr & Hc & Hnz); [by left|].
  assert (Hrest : ∀ r' c', (r', c') ∈ rest → (r', c') ≠ (r, c)).
  { intros r' c' Hin [= -> ->]. done. }
  destruct (unique_solution (set_cell g r c 0)) as [[|]|] eqn:Hu; [| |done].
  - destruct (IH (set_cell g r c 0) (removed + 1)%Z)
      as (Hg' & Hsub & Hle & Hmin); [..|exact Hrun|].
    + by apply grid9_set_cell.
    + by apply agrees_clear.
    + intros r' c' Hin.
      destruct (Hcells r' c') as (Hr' & Hc' & Hnz'); [by right|].
      split_and!; [done..|]. rewrite cell_set_cell_ne; auto.
    + split_and!; [done| |lia|].
      * eapply agrees_trans; [done|]. by apply agrees_after_clear.
      * intros Hlt r' c' [[= -> ->]|Hin]%elem_of_cons; [|by apply Hmin].
        left. destruct (decide (cell g' r c = 0%Z)) as [|Hnz']; [done|].
        pose proof (Hsub r c Hr Hc Hnz') as Heq.
        rewrite cell_set_cell_eq in Heq by done. congruence.
  - rewrite set_cell_restore in Hrun by done.
    destruct (IH g removed) as (Hg' & Hsub & Hle & Hmin);
      [done|done| |exact Hrun|].
    { intros r' c' Hin. apply Hcells. by right. }
    split_and!; [done..|].
    intros Hlt r' c' [[= -> ->]|Hin]%elem_of_cons; [|by apply Hmin].
    right.
    destruct (unique_solution_total (set_cell g' r c 0)) as [b Hb].
    { by apply grid9_set_cell. }
    destruct b; [|done].
    rewrite (unique_solution_mono (set_cell g r c 0) (set_cell g' r c 0) sol)
      in Hu; [done|done|by apply grid9_set_cell|by apply grid9_set_cell
              |by apply agrees_clear|by apply agrees_clear_both|done].
Qed.

(** The first cell visited is removed whenever a removal is allowed. *)
Lemma remove_cells_first num_clues sol r c rest g removed g' removed' :
  solved sol → grid9 g → agrees g sol → NoDup ((r, c) :: rest) →
  (∀ r' c', (r', c') ∈ (r, c) :: rest → r' < 9 ∧ c' < 9 ∧ cell g r' c' ≠ 0%Z) →
  (removed < 81 - num_clues)%Z →
  unique_solution (set_cell g r c 0) = Some true →
  remove_cells num_clues ((r, c) :: rest) g removed = Some (g', removed') →
  (removed + 1 ≤ removed')%Z.
Proof.
  intros Hsol Hg Hag Hnd Hcells Hlt Hu Hrun.
  cbn [remove_cells] in Hrun. rewrite bool_decide_eq_false_2 in Hrun by lia.
  rewrite Hu in Hrun.
  destruct (Hcells r c) as (Hr & Hc & Hnz); [by left|].
  apply NoDup_cons in Hnd as [Hnotin Hnd].
  destruct (remove_cells_trace num_clues sol rest (set_cell g r c 0)
              (removed + 1)%Z g' removed') as (_ & _ & Hle & _); try done.
  - by apply grid9_set_cell.
  - by apply agrees_clear.
  - intros r' c' Hin.
    destruct (Hcells r' c') as (Hr' & Hc' & Hnz'); [by right|].
    split_and!; [done..|]. rewrite cell_set_cell_ne; [done..|].
    intros [= -> ->]. done.
Qed.

End removal_facts.

Section engine_properties.
Context `{Random Rng}.
Implicit Types (g s sol puz : Grid) (r c : nat) (v n : Z).

(** The steps of [generate_sudoku], one by one. *)
Lemma generate_sudoku_run_steps num_clues (st : Rng) :
  RandomLaws Rng →
  ∃ sol st1 cells st2 puz removed,
    solve true empty_grid st = Some (true, sol, st1) ∧
    shuffle all_cells st1 = (cells, st2) ∧
    remove_cells num_clues cells sol 0 = Some (puz, removed) ∧
    generate_sudoku_run num_clues st = Some (puz, sol, removed, st2) ∧
    solved sol ∧ cells ≡ₚ all_cells.
Proof.
  intros Hlaws.
  destruct (generate_sudoku_run_spec num_clues st Hlaws)
    as (puz & sol & removed & st2 & Hrun & Hgen).
  unfold generate_sudoku_run in Hrun.
  destruct (solve_spec true empty_grid st grid9_empty)
    as (b & sol' & st1 & Hsolve & _ & Hsem).
  rewrite Hsolve in Hrun.
  specialize (Hsem (cands_ok_laws true Hlaws)).
  destruct b.
  2:{ destruct (Hsem first_solution).
      apply fills_empty_solved, solved_first_solution. }
  destruct (shuffle all_cells st1) as [cells st2'] eqn:Hsh.
  destruct (remove_cells num_clues cells sol' 0) as [[puz' removed']|] eqn:Hrem;
    [|done].
  injection Hrun as -> -> -> ->.
  exists sol, st1, cells, st2, puz, removed.
  split_and!; [done..| | |].
  - unfold generate_sudoku_run. by rewrite Hsolve, Hsh, Hrem.
  - by apply fills_empty_solved.
  - pose proof (shuffle_perm Hlaws all_cells st1) as Hp. by rewrite Hsh in Hp.
Qed.

Lemma shuffled_cells sol cells :
  solved sol → cells ≡ₚ all_cells →
  NoDup cells ∧ ∀ r c, (r, c) ∈ cells → r < 9 ∧ c < 9 ∧ cell sol r c ≠ 0%Z.
Proof.
  intros Hsol Hperm. split; [rewrite Hperm; apply NoDup_all_cells|].
  intros r c Hin. rewrite Hperm in Hin.
  apply elem_of_all_cells in Hin as [Hr Hc].
  split_and!; [done..|]. by apply solved_full.
Qed.

(** Property X1.  On a 9x9 grid whose given digits do not clash, [solve]
    always returns, in either mode and whatever the generator answers
    (as long as [random.sample] returns a permutation): it returns [True]
    exactly when the grid has a completion, and the grid it leaves is
    then one of them. *)
Theorem solve_sound_complete (fill : bool) g (st : Rng) :
  RandomLaws Rng → grid9 g → consistent g →
  ∃ b g' st', solve fill g st = Some (b, g', st') ∧
    (b = true ↔ ∃ t, completion g t) ∧
    (b = true → completion g g').
Proof.
  intros Hlaws Hg Hcons.
  destruct (solve_spec fill g st Hg) as (b & g' & st' & Heq & _ & Hsem).
  specialize (Hsem (cands_ok_laws fill Hlaws)).
  exists b, g', st'. split; [done|]. destruct b.
  - apply fills_completion in Hsem; [|done]. split; [|done].
    split; [by exists g'|done].
  - split; [|done]. split; [done|].
    intros [t Ht]. destruct (Hsem t). by apply fills_completion.
Qed.

(** Property X4.  The solution [generate_sudoku] returns holds each of the
    digits 1..9 exactly once in every row, every column and every 3x3
    box. *)
Theorem generate_sudoku_solution_units (num_clues : Z) (st : Rng) :
  RandomLaws Rng →
  ∃ puz sol st',
    generate_sudoku num_clues st = Some (puz, sol, st') ∧
    (∀ r, r < 9 → values sol (row_cells r) ≡ₚ digits) ∧
    (∀ c, c < 9 → values sol (col_cells c) ≡ₚ digits) ∧
    (∀ br bc, br < 3 → bc < 3 → values sol (box_cells br bc) ≡ₚ digits).
Proof.
  intros Hlaws.
  destruct (generate_sudoku_run_steps num_clues st Hlaws)
    as (sol & st1 & cells & st2 & puz & removed & _ & _ & _ & Hrun & Hsol & _).
  exists puz, sol, st2. unfold generate_sudoku. rewrite Hrun.
  split; [done|]. split_and!.
  - intros r Hr. by apply row_values_perm.
  - intros c Hc. by apply col_values_perm.
  - intros br bc Hbr Hbc. by apply box_values_perm.
Qed.

(** Property X5.  When the removal loop of [generate_sudoku] ends without
    reaching its quota (fewer than [81 - num_clues] removals), the puzzle
    is minimal: clearing any one of its clues gives a grid that
    [unique_solution] rejects. *)
Theorem generate_sudoku_minimal (num_clues : Z) (st : Rng) :
  RandomLaws Rng →
  ∃ puz sol removed st',
    generate_sudoku_run num_clues st = Some (puz, sol, removed, st') ∧
    ((removed < 81 - num_clues)%Z →
     ∀ r c, r < 9 → c < 9 → cell puz r c ≠ 0%Z →
       unique_solution (set_cell puz r c 0) = Some false).
Proof.
  intros Hlaws.
  destruct (generate_sudoku_run_steps num_clues st Hlaws)
    as (sol & st1 & cells & st2 & puz & removed
        & _ & _ & Hrem & Hrun & Hsol & Hperm).
  exists puz, sol, removed, st2. split; [done|].
  intros Hlt r c Hr Hc Hnz.
  destruct (shuffled_cells sol cells Hsol Hperm) as [Hnd Hcells].
  destruct (remove_cells_trace num_clues sol cells sol 0 puz removed)
    as (_ & _ & _ & Hmin); [done|apply Hsol|apply agrees_refl|done..|].
  destruct (Hmin Hlt r c) as [Hz|Hu]; [|done|done].
  rewrite Hperm. by apply elem_of_all_cells.
Qed.

(** With room for one removal, the first cell visited is removed. *)
Lemma generate_removed_pos num_clues (st : Rng) puz sol removed st' :
  RandomLaws Rng → (num_clues ≤ 80)%Z →
  generate_sudoku_run num_clues st = Some (puz, sol, removed, st') →
  (1 ≤ removed)%Z.
Proof.
  intros Hlaws Hn Hrun0.
  destruct (generate_sudoku_run_steps num_clues st Hlaws)
    as (sol1 & st1 & cells & st2 & puz1 & removed1
        & _ & _ & Hrem & Hrun & Hsol & Hperm).
  rewrite Hrun in Hrun0. injection Hrun0 as -> -> -> ->.
  destruct (shuffled_cells sol cells Hsol Hperm) as [Hnd Hcells].
  destruct cells as [|[r c] rest].
  { apply Permutation_length in Hperm. done. }
  destruct (Hcells r c) as (Hr & Hc & _); [by left|].
  pose proof (remove_cells_first num_clues sol r c rest sol 0 puz removed
    Hsol (proj1 Hsol) (agrees_refl sol) Hnd Hcells) as Hfirst.
  apply Hfirst; [lia|by apply single_clear_unique|done].
Qed.

(** Property X6.  With [num_clues <= 80] the first cell the removal loop
    visits is always removed, so the puzzle has at least one empty cell
    and at most 80 clues. *)
Theorem generate_sudoku_removes_one (num_clues : Z) (st : Rng) :
  RandomLaws Rng → (num_clues ≤ 80)%Z →
  ∃ puz sol removed st',
    generate_sudoku_run num_clues st = Some (puz, sol, removed, st') ∧
    (1 ≤ removed)%Z ∧ (Z.of_nat (clues puz) ≤ 80)%Z.
Proof.
  intros Hlaws Hn.
  destruct (generate_sudoku_run_spec num_clues st Hlaws)
    as (puz & sol & removed & st' & Hrun & Hgen).
  exists puz, sol, removed, st'. split; [done|].
  pose proof (generate_removed_pos num_clues st puz sol removed st'
                Hlaws Hn Hrun) as Hone.
  split; [done|].
  destruct Hgen as (_ & _ & _ & _ & Hz & _).
  pose proof (zeros_clues puz). lia.
Qed.

End engine_properties.

(** Property X3.  The inner [dfs] of [unique_solution] leaves the grid as
    it found it and adds to the counter the number of distinct grids that
    fill the empty cells without a clash (the completions, when the given
    digits do not clash); [unique_solution] answers whether that number
    is 1. *)
Theorem dfs_counts_completions (g : Grid) (cnt : Z) :
  grid9 g →
  ∃ l, NoDup l ∧ (∀ s, s ∈ l ↔ fills g s) ∧
       (consistent g → ∀ s, s ∈ l ↔ completion g s) ∧
       dfs max_depth (g, cnt) = Some (g, (cnt + Z.of_nat (length l))%Z) ∧
       unique_solution g = Some (bool_decide (length l = 1)).
Proof.
  intros Hg. exists (completions max_depth g).
  destruct (completions_spec max_depth g Hg (zeros_lt_max_depth g))
    as [Hin Hnd].
  split; [done|]. split; [done|]. split.
  { intros Hcons s. rewrite Hin. by apply fills_completion. }
  split; [|by apply unique_solution_count].
  apply dfs_spec; [done|apply zeros_lt_max_depth].
Qed.

Section session_inv.
Context `{Random Rng}.
Implicit Types (gm : Game) (gs : SudokuState) (s : Rng) (inp : Input)
  (r c : nat) (cl : Cell).

Lemma scell_set_scell_ne gs r c cl r' c' :
  (r', c') ≠ (r, c) → scell (set_scell gs r c cl) r' c' = scell gs r' c'.
Proof.
  intros Hne. unfold scell, set_scell. cbn [grid].
  destruct (decide (r' = r)) as [->|Hr].
  - rewrite list_lookup_alter_eq. destruct (grid gs !! r) as [row|]; [|done].
    simpl. rewrite list_lookup_insert_ne; [done|]. by intros ->.
  - by rewrite list_lookup_alter_ne.
Qed.

Lemma grid9_set_scell gs r c cl :
  grid9 (grid gs) → grid9 (grid (set_scell gs r c cl)).
Proof.
  intros [Hl Hr]. split.
  - unfold set_scell. cbn [grid]. by rewrite length_alter.
  - unfold set_scell. cbn [grid]. apply Forall_alter; [done|].
    intros row _ Hrow. by rewrite length_insert.
Qed.

Lemma cell_board gs r c : cell (board gs) r c = value (scell gs r c).
Proof.
  unfold cell, board, scell. rewrite list_lookup_fmap.
  destruct (grid gs !! r) as [row|]; [|done]. simpl.
  rewrite list_lookup_fmap. by destruct (row !! c).
Qed.

Lemma grid9_board gs : grid9 (grid gs) → grid9 (board gs).
Proof.
  intros [Hl Hr]. split.
  - unfold board. by rewrite length_fmap.
  - unfold board. apply Forall_fmap. eapply Forall_impl; [done|].
    intros row Hrow. simpl. by rewrite length_fmap.
Qed.

(** Writing a cell that is not a clue, without making it one. *)
Lemma session_ok_edit gs r c cl :
  session_ok gs → r < 9 → c < 9 →
  fixed (scell gs r c) = false → fixed cl = false →
  session_ok (set_scell gs r c cl).
Proof.
  intros (Hg & Hp & Hc0 & Hu & Hcells) Hr Hc Hfree Hcl.
  refine (conj _ (conj Hp (conj Hc0 (conj Hu _)))).
  { by apply grid9_set_scell. }
  intros r' c' Hr' Hc'. cbn [puzzle set_scell].
  destruct (decide ((r', c') = (r, c))) as [[= -> ->]|Hne].
  - rewrite scell_set_scell by done. rewrite Hcl.
    destruct (Hcells r c Hr Hc) as [Hfix _]. rewrite Hfree in Hfix.
    split; [done|]. done.
  - rewrite scell_set_scell_ne by done. by apply Hcells.
Qed.

Lemma session_ok_set_moves gs m : session_ok gs → session_ok (set_moves gs m).
Proof. done. Qed.

Lemma same_game_refl gs : same_game gs gs.
Proof. done. Qed.

Lemma same_game_trans gs1 gs2 gs3 :
  same_game gs1 gs2 → same_game gs2 gs3 → same_game gs1 gs3.
Proof. intros (? & ? & ?) (? & ? & ?). unfold same_game. split_and!; congruence. Qed.

Lemma same_game_sym gs1 gs2 : same_game gs1 gs2 → same_game gs2 gs1.
Proof. intros (? & ? & ?). unfold same_game. split_and!; congruence. Qed.


End session_inv.

Section session_steps.
Context `{Random Rng}.
Implicit Types (gm : Game) (gs : SudokuState) (s : Rng) (inp : Input)
  (r c : nat) (cl : Cell).

(** What [new_game] builds from the pair it generates. *)
Lemma new_game_built now s :
  RandomLaws Rng →
  ∃ gs s' puz sol removed,
    new_game now s = Some (gs, s') ∧
    generate_sudoku_run default_num_clues s = Some (puz, sol, removed, s') ∧
    generated default_num_clues puz sol removed ∧
    puzzle gs = puz ∧ solution gs = sol ∧ moves gs = 0%Z ∧
    start_time gs = now ∧ grid9 (grid gs) ∧
    ∀ r c, r < 9 → c < 9 →
      scell gs r c = mkCell (cell puz r c) (negb (cell puz r c =? 0)%Z) 0.
Proof.
  intros Hlaws.
  destruct (generate_sudoku_run_spec default_num_clues s Hlaws)
    as (puz & sol & removed & s' & Hrun & Hgen).
  eexists _, s', puz, sol, removed.
  split.
  { unfold new_game, call_generate_sudoku, generate_sudoku.
    cbn [default]. rewrite Hrun. reflexivity. }
  split_and!; [done..| |].
  - split; [done|]. cbn [grid]. repeat constructor.
  - intros r c Hr Hc. unfold scell. cbn [grid].
    rewrite list_lookup_fmap, lookup_seq_lt by done. cbn [fmap option_fmap option_map mbind option_bind].
    rewrite list_lookup_fmap, lookup_seq_lt by done. done.
Qed.

Lemma generated_session gs puz sol removed :
  generated default_num_clues puz sol removed →
  puzzle gs = puz → solution gs = sol → grid9 (grid gs) →
  (∀ r c, r < 9 → c < 9 →
     scell gs r c = mkCell (cell puz r c) (negb (cell puz r c =? 0)%Z) 0) →
  session_ok gs.
Proof.
  intros Hgen Hpuz Hsol Hg Hcells.
  destruct (generated_completion _ _ _ _ Hgen) as [Hc Hu].
  destruct Hgen as (_ & Hgp & _).
  unfold session_ok. rewrite Hpuz, Hsol.
  refine (conj Hg (conj Hgp (conj Hc (conj Hu _)))).
  intros r c Hr Hc'. rewrite Hcells by done. cbn [fixed value pencil].
  by split.
Qed.


Lemma game_ok_push_undo gm gs1 :
  game_ok gm → session_ok gs1 → same_game (state gm) gs1 →
  game_ok (with_state (push_undo gm) gs1).
Proof.
  intros (Hr & Hc & Hs & Hst) Hs1 Hsame.
  refine (conj Hr (conj Hc (conj Hs1 _))). cbn [undo_stack with_state].
  fold (undo_stack (push_undo gm)). rewrite undo_stack_push_undo.
  assert (Hall : Forall (λ gs, session_ok gs ∧ same_game gs1 gs)
                   (undo_stack gm ++ [state gm])).
  { apply Forall_app. split.
    - eapply Forall_impl; [done|]. intros gs [Hok Hsg]. split; [done|].
      eapply same_game_trans; [by apply same_game_sym|done].
    - apply Forall_singleton. split; [done|]. by apply same_game_sym. }
  destruct (200 <? _); [by apply Forall_drop|done].
Qed.


Lemma cursor_index gm :
  game_ok gm → Z.to_nat (cursor gm).1 < 9 ∧ Z.to_nat (cursor gm).2 < 9.
Proof. intros (Hr & Hc & _). lia. Qed.



Lemma game_ok_place ch gm : game_ok gm → game_ok (place ch gm).
Proof.
  intros Hok. destruct (cursor_index gm Hok) as [Hr Hc].
  unfold place. destruct (cursor gm) as [cur_r cur_c]. cbn [fst snd] in *.
  destruct (negb _) eqn:Hfree; [|done]. apply negb_true_iff in Hfree.
  apply game_ok_push_undo; [done| |done].
  apply session_ok_set_moves, session_ok_edit; [apply Hok|done..].
Qed.

(** The three outcomes of [hint]. *)
Lemma hint_cases gm s :
  RandomLaws Rng →
  (show_hints (settings gm) = false ∧
   hint gm s = (with_status gm "Hints are disabled in Settings.", s)) ∨
  (show_hints (settings gm) = true ∧
   (∀ r c, r < 9 → c < 9 →
      fixed (scell (state gm) r c) = true ∨
      value (scell (state gm) r c) ≠ 0%Z) ∧
   hint gm s = (with_status gm "No hints: puzzle already complete!", s)) ∨
  (show_hints (settings gm) = true ∧
   ∃ r c s' msg,
     r < 9 ∧ c < 9 ∧
     fixed (scell (state gm) r c) = false ∧
     value (scell (state gm) r c) = 0%Z ∧
     hint gm s =
       (with_cursor
          (with_status
             (with_state gm
                (set_scell (state gm) r c
                   (mkCell 0 false (cell (solution (state gm)) r c))))
             msg)
          (Z.of_nat r, Z.of_nat c), s')).
Proof.
  intros Hlaws. unfold hint.
  destruct (show_hints (settings gm)); [|by left]. right. cbn [negb].
  destruct (filter _ all_cells) as [|rc0 l] eqn:Hav.
  - left. split; [done|]. split; [|done]. intros r c Hr Hc.
    destruct (fixed (scell (state gm) r c)) eqn:Hf; [by left|right].
    intros Hv.
    apply (filter_nil_not_elem_of _ _ (r, c) Hav); [|by apply elem_of_all_cells].
    cbn [fst snd]. rewrite Hf, Hv. done.
  - right. split; [done|].
    pose proof (randbelow_lt Hlaws (length (rc0 :: l)) s) as Hlt.
    destruct (randbelow (length (rc0 :: l)) s) as [i s'] eqn:Hrb.
    cbn [fst] in Hlt. specialize (Hlt ltac:(simpl; lia)).
    destruct (lookup_lt_is_Some_2 (rc0 :: l) i Hlt) as [[r c] Hi].
    rewrite Hi. cbn [default].
    assert (Hin : (r, c) ∈ filter
       (λ rc, negb (fixed (scell (state gm) rc.1 rc.2))
              && (value (scell (state gm) rc.1 rc.2) =? 0)%Z = true) all_cells).
    { rewrite Hav. by eapply list_elem_of_lookup_2. }
    apply list_elem_of_filter in Hin as [Hp [Hr Hc]%elem_of_all_cells].
    cbn [fst snd] in Hp.
    apply andb_true_iff in Hp as [Hf%negb_true_iff Hv%Z.eqb_eq].
    eexists r, c, s', _. split_and!; [done..|].
    cbv beta iota zeta delta [id]. rewrite Hf, Hv. reflexivity.
Qed.




End session_steps.

Section session_properties.
Context `{Random Rng}.
Implicit Types (gm : Game) (gs : SudokuState) (s : Rng) (inp : Input)
  (r c : nat) (cl : Cell).

Lemma is_complete_spec gs :
  is_complete gs = true ↔
  ∀ r c, r < 9 → c < 9 →
    value (scell gs r c) ≠ 0%Z ∧
    value (scell gs r c) = cell (solution gs) r c.
Proof.
  unfold is_complete. rewrite forallb_forall. split.
  - intros Hall r c Hr Hc.
    assert (Hin : In (r, c) all_cells).
    { by apply list_elem_of_In, elem_of_all_cells. }
    specialize (Hall (r, c) Hin). cbn [fst snd] in Hall.
    apply negb_true_iff, orb_false_iff in Hall as [Hnz Heq].
    apply Z.eqb_neq in Hnz. apply negb_false_iff, Z.eqb_eq in Heq. done.
  - intros Hall [r c] [Hr Hc]%list_elem_of_In%elem_of_all_cells.
    cbn [fst snd]. destruct (Hall r c Hr Hc) as [Hnz Heq].
    apply negb_true_iff, orb_false_iff. split.
    + by apply Z.eqb_neq.
    + by apply negb_false_iff, Z.eqb_eq.
Qed.

Lemma zeros_pos_empty (g : Grid) :
  0 < zeros g → ∃ r c, r < 9 ∧ c < 9 ∧ cell g r c = 0%Z.
Proof.
  intros Hpos. destruct (find_empty g) as [[r c]|] eqn:Hf.
  - exists r, c. by apply find_empty_Some.
  - rewrite zeros_full in Hpos; [lia|]. intros r c. by apply find_empty_None.
Qed.

(** Property X7.  In a session built on a generated pair, [is_complete]
    holds exactly when the digits on the board are the stored solution,
    and exactly when the board is a full grid without a clash: the
    comparison with the one stored solution rejects no correct board. *)
Theorem is_complete_iff_solved gs :
  session_ok gs →
  (is_complete gs = true ↔ board gs = solution gs) ∧
  (is_complete gs = true ↔ solved (board gs)).
Proof.
  intros (Hg & Hp & [Hsol Hag] & Huniq & Hcells).
  assert (Hb : grid9 (board gs)) by by apply grid9_board.
  assert (H1 : is_complete gs = true ↔ board gs = solution gs).
  { rewrite is_complete_spec. split.
    - intros Hall. apply grid9_ext; [done|apply Hsol|].
      intros r c Hr Hc. rewrite cell_board. by apply Hall.
    - intros Heq r c Hr Hc. rewrite <-cell_board, Heq.
      split; [by apply solved_full|done]. }
  split; [done|]. rewrite H1. split.
  - by intros ->.
  - intros Hsb. apply Huniq. split; [done|].
    intros r c Hr Hc Hnz. rewrite cell_board.
    destruct (Hcells r c Hr Hc) as [Hfix Hval].
    apply Hval. rewrite Hfix. by apply negb_true_iff, Z.eqb_neq.
Qed.

(** Property X8.  [new_game] always returns: the session has a puzzle
    with a single completion, its stored solution; every cell shows the
    puzzle digit with no pencil mark and is fixed exactly when the puzzle
    has a clue there; the move count is 0, the start time is the reading
    of the clock, the puzzle has between 35 and 80 clues, and the session
    is not complete. *)
Theorem new_game_fresh now s :
  RandomLaws Rng →
  ∃ gs s',
    new_game now s = Some (gs, s') ∧
    session_ok gs ∧ game_ok (fresh_game gs) ∧
    moves gs = 0%Z ∧ start_time gs = now ∧
    (∀ r c, r < 9 → c < 9 →
       value (scell gs r c) = cell (puzzle gs) r c ∧
       pencil (scell gs r c) = 0%Z ∧
       (fixed (scell gs r c) = true ↔ cell (puzzle gs) r c ≠ 0%Z)) ∧
    35 ≤ clues (puzzle gs) ≤ 80 ∧
    is_complete gs = false.
Proof.
  intros Hlaws.
  destruct (new_game_built now s Hlaws)
    as (gs & s' & puz & sol & removed & Hnew & Hrun & Hgen & Hp & Hso & Hm & Ht
        & Hg & Hcells).
  exists gs, s'.
  assert (Hok : session_ok gs) by by eapply generated_session.
  assert (Hone : (1 ≤ removed)%Z).
  { eapply generate_removed_pos; [done| |done]. done. }
  pose proof Hgen as (_ & _ & _ & _ & Hz & Hbound).
  unfold default_num_clues in Hbound.
  pose proof (zeros_clues puz) as Hzc.
  refine (conj Hnew (conj Hok (conj _ (conj Hm (conj Ht (conj _ (conj _ _))))))).
  - refine (conj _ (conj _ (conj Hok _))); [done|done|by apply Forall_nil].
  - intros r c Hr Hc. rewrite Hcells, Hp by done. cbn [value pencil fixed].
    split; [done|]. split; [done|].
    rewrite negb_true_iff, Z.eqb_neq. done.
  - rewrite Hp. lia.
  - destruct (zeros_pos_empty puz) as (r & c & Hr & Hc & Hz0); [lia|].
    destruct (is_complete gs) eqn:Hic; [|done].
    destruct (proj1 (is_complete_spec gs) Hic r c Hr Hc) as [Hnz _].
    rewrite Hcells in Hnz by done. done.
Qed.



(** What [new_game] returns, as far as the loop needs it. *)
Lemma new_game_session now s :
  RandomLaws Rng →
  ∃ gs s',
    new_game now s = Some (gs, s') ∧ session_ok gs ∧
    moves gs = 0%Z ∧ start_time gs = now ∧ is_complete gs = false.
Proof.
  intros Hlaws.
  destruct (new_game_built now s Hlaws)
    as (gs & s' & puz & sol & removed & Hnew & Hrun & Hgen & Hp & Hso & Hm & Ht
        & Hg & Hcells).
  exists gs, s'.
  assert (Hok : session_ok gs) by by eapply generated_session.
  assert (Hone : (1 ≤ removed)%Z).
  { eapply generate_removed_pos; [done| |done]. done. }
  pose proof Hgen as (_ & _ & _ & _ & Hz & _).
  refine (conj Hnew (conj Hok (conj Hm (conj Ht _)))).
  destruct (zeros_pos_empty puz) as (r & c & Hr & Hc & Hz0); [lia|].
  destruct (is_complete gs) eqn:Hic; [|done].
  destruct (proj1 (is_complete_spec gs) Hic r c Hr Hc) as [Hnz _].
  rewrite Hcells in Hnz by done. done.
Qed.


(** Property X10.  The key N always starts a new session and empties the
    undo stack, so that an undo right after it does nothing; the cursor
    and the settings are kept, the move count is 0 and the start time is
    the reading of the clock at that turn. *)
Theorem new_game_key_resets inp gm s :
  RandomLaws Rng → is_new_game_key (key inp) = true →
  ∃ gm' s',
    game_step inp gm s = Some (Continue gm' s') ∧
    undo_stack gm' = [] ∧ undo gm' = gm' ∧
    cursor gm' = cursor gm ∧ settings gm' = settings gm ∧
    session_ok (state gm') ∧
    moves (state gm') = 0%Z ∧ start_time (state gm') = clock inp ∧
    is_complete (state gm') = false.
Proof.
  intros Hlaws Hk.
  destruct (new_game_session (clock inp) s Hlaws)
    as (gs & s' & Hnew & Hok & Hm & Ht & Hic).
  exists (with_undo_stack (with_state gm gs) []), s'.
  split; [|by destruct gm].
  unfold game_step. destruct (cursor gm) as [cur_r cur_c].
  unfold is_new_game_key, key_in, existsb in Hk |- *.
  destruct (key inp =? ord "n")%Z eqn:Hn.
  - apply Z.eqb_eq in Hn. rewrite Hn. cbn. by rewrite Hnew.
  - destruct (key inp =? ord "N")%Z eqn:HN; [|done].
    apply Z.eqb_eq in HN. rewrite HN. cbn. by rewrite Hnew.
Qed.

End session_properties.

Section command_properties.
Context `{Random Rng}.
Implicit Types (gm : Game) (gs : SudokuState) (s : Rng) (inp : Input)
  (r c : nat) (cl : Cell).

(** Property X11.  With hints enabled and an empty cell left, [hint] picks
    an empty cell that is not a clue, writes the digit of the solution as
    its pencil mark and moves the cursor there; no other cell, the move
    count and the undo stack change.  Enter or Space pressed next places
    that digit, which is never 0, and counts one move. *)
Theorem hint_then_commit gm s :
  RandomLaws Rng → game_ok gm → show_hints (settings gm) = true →
  (∃ r c, r < 9 ∧ c < 9 ∧ fixed (scell (state gm) r c) = false
          ∧ value (scell (state gm) r c) = 0%Z) →
  ∃ r c gm' s',
    hint gm s = (gm', s') ∧ r < 9 ∧ c < 9 ∧
    scell (state gm) r c = mkCell 0 false (pencil (scell (state gm) r c)) ∧
    cursor gm' = (Z.of_nat r, Z.of_nat c) ∧
    cursor_cell gm' = mkCell 0 false (cell (solution (state gm)) r c) ∧
    (∀ r' c', (r', c') ≠ (r, c) →
       scell (state gm') r' c' = scell (state gm) r' c') ∧
    moves (state gm') = moves (state gm) ∧
    undo_stack gm' = undo_stack gm ∧
    cursor_cell (commit_pencil gm') =
      mkCell (cell (solution (state gm)) r c) false 0 ∧
    cell (solution (state gm)) r c ≠ 0%Z ∧
    moves (state (commit_pencil gm')) = (moves (state gm) + 1)%Z.
Proof.
  intros Hlaws Hok Hon (r0 & c0 & Hr0 & Hc0 & Hf0 & Hv0).
  destruct (hint_cases gm s Hlaws)
    as [[Hoff _]|[(_ & Hnone & _)|(_ & r & c & s' & msg & Hr & Hc & Hf & Hv & Hh)]].
  { congruence. }
  { destruct (Hnone r0 c0 Hr0 Hc0); congruence. }
  pose proof Hok as (_ & _ & (Hg & _ & [Hsol _] & _) & _).
  assert (Hnz : cell (solution (state gm)) r c ≠ 0%Z) by by apply solved_full.
  eexists r, c, _, s'. split; [exact Hh|].
  assert (Hcell : cursor_cell
      (with_cursor
         (with_status
            (with_state gm
               (set_scell (state gm) r c
                  (mkCell 0 false (cell (solution (state gm)) r c)))) msg)
         (Z.of_nat r, Z.of_nat c))
      = mkCell 0 false (cell (solution (state gm)) r c)).
  { unfold cursor_cell. cbn [cursor with_cursor state with_status with_state fst snd].
    rewrite !Nat2Z.id. by apply scell_set_scell. }
  split_and!; try done.
  - destruct (scell (state gm) r c). simpl in *. congruence.
  - intros r' c' Hne. cbn [state with_cursor with_status with_state].
    by apply scell_set_scell_ne.
  - unfold commit_pencil, cursor_cell in *.
    cbn [cursor with_cursor fst snd] in *. rewrite !Nat2Z.id in *.
    cbn [state with_cursor with_status with_state] in *.
    rewrite Hcell. cbn [fixed pencil negb andb].
    destruct (Z.eqb_spec (cell (solution (state gm)) r c) 0) as [|_]; [done|].
    cbn [negb cursor with_state push_undo with_undo_stack with_cursor
         with_status state fst snd].
    rewrite !Nat2Z.id, scell_set_moves, scell_set_scell; [done| |done..].
    by apply grid9_set_scell.
  - unfold commit_pencil, cursor_cell in *.
    cbn [cursor with_cursor fst snd] in *. rewrite !Nat2Z.id in *.
    cbn [state with_cursor with_status with_state] in *.
    rewrite Hcell. cbn [fixed pencil negb andb].
    destruct (Z.eqb_spec (cell (solution (state gm)) r c) 0) as [|_]; [done|].
    done.
Qed.

Lemma value_fixed_set_pencil gs r c p r' c' :
  let cl := scell gs r c in
  let gs' := set_scell gs r c (mkCell (value cl) (fixed cl) p) in
  value (scell gs' r' c') = value (scell gs r' c') ∧
  fixed (scell gs' r' c') = fixed (scell gs r' c').
Proof.
  intros cl gs'. destruct (decide ((r', c') = (r, c))) as [[= -> ->]|Hne].
  - unfold gs', cl, scell, set_scell. cbn [grid].
    rewrite list_lookup_alter_eq. destruct (grid gs !! r) as [row|]; [|done].
    cbn. rewrite list_lookup_insert.
    case_decide as Hd; [|done]. destruct Hd as [_ Hlt].
    destruct (lookup_lt_is_Some_2 row c Hlt) as [x ->]. done.
  - unfold gs'. by rewrite scell_set_scell_ne.
Qed.

(** Property X12.  [hint] never places a digit: whatever the settings and
    the generator, the value and the clue flag of every cell, the move
    count, the undo stack, the puzzle and the solution are as before; with
    hints disabled the state and the cursor are unchanged too. *)
Theorem hint_frame gm s :
  moves (state (hint gm s).1) = moves (state gm) ∧
  undo_stack (hint gm s).1 = undo_stack gm ∧
  same_game (state gm) (state (hint gm s).1) ∧
  (∀ r c, value (scell (state (hint gm s).1) r c) = value (scell (state gm) r c)
          ∧ fixed (scell (state (hint gm s).1) r c)
            = fixed (scell (state gm) r c)) ∧
  (show_hints (settings gm) = false →
     state (hint gm s).1 = state gm ∧ cursor (hint gm s).1 = cursor gm).
Proof.
  unfold hint. destruct (show_hints (settings gm)); cbn [negb]; [|done].
  destruct (filter _ _) as [|rc l]; [done|].
  destruct (randbelow _ _) as [i s']. destruct (default _ _) as [r c].
  cbn [fst state with_cursor with_status with_state undo_stack].
  split_and!; [done..| |done].
  intros r' c'. apply value_fixed_set_pencil.
Qed.

(** Property X13.  With hints enabled, [hint] reports
    [No hints: puzzle already complete!] and changes nothing else exactly
    when no cell of the board is empty, whether or not the digits on the
    board are the right ones. *)
Theorem hint_exhausted gm s :
  game_ok gm → show_hints (settings gm) = true →
  hint gm s = (with_status gm "No hints: puzzle already complete!", s) ↔
  ∀ r c, r < 9 → c < 9 → value (scell (state gm) r c) ≠ 0%Z.
Proof.
  intros (_ & _ & (Hg & Hp & [Hsol Hag] & _ & Hcells) & _) Hon.
  unfold hint. rewrite Hon. cbn [negb].
  destruct (filter _ all_cells) as [|rc l] eqn:Hav.
  - split; [intros _|done]. intros r c Hr Hc Hv.
    destruct (Hcells r c Hr Hc) as [Hfix Hval].
    destruct (fixed (scell (state gm) r c)) eqn:Hf.
    + destruct Hval as [Hval _]; [done|].
      symmetry in Hfix. apply negb_true_iff, Z.eqb_neq in Hfix. congruence.
    + apply (filter_nil_not_elem_of _ _ (r, c) Hav);
        [|by apply elem_of_all_cells].
      cbn [fst snd]. rewrite Hf, Hv. done.
  - assert (Hin : rc ∈ filter
       (λ rc, negb (fixed (scell (state gm) rc.1 rc.2))
              && (value (scell (state gm) rc.1 rc.2) =? 0)%Z = true) all_cells).
    { rewrite Hav. by left. }
    apply list_elem_of_filter in Hin as [Hrc Hcell].
    destruct rc as [r0 c0]. apply elem_of_all_cells in Hcell as [Hr0 Hc0].
    cbn [fst snd] in Hrc.
    apply andb_true_iff in Hrc as [_ Hv0%Z.eqb_eq].
    split.
    + destruct (randbelow _ _) as [i s']. destruct (default _ _) as [r c].
      intros Heq. apply (f_equal (λ x, status_msg x.1)) in Heq.
      cbn [fst status_msg with_cursor with_status with_state] in Heq.
      by apply (f_equal (λ m, String.get 0 m)) in Heq.
    + intros Hfull. by destruct (Hfull r0 c0 Hr0 Hc0).
Qed.

(** [k] undos pop the last [k] snapshots. *)
Lemma undo_iter_stack k gm :
  k ≤ length (undo_stack gm) →
  undo_stack (Nat.iter k undo gm) =
    take (length (undo_stack gm) - k) (undo_stack gm) ∧
  (1 ≤ k →
   Some (state (Nat.iter k undo gm)) =
     undo_stack gm !! (length (undo_stack gm) - k)).
Proof.
  induction k as [|k IH]; intros Hk.
  { split; [|lia]. cbn. by rewrite Nat.sub_0_r, firstn_all. }
  destruct IH as [Hst Hstate]; [lia|]. rewrite !Nat.iter_succ.
  set (g := Nat.iter k undo gm) in *.
  assert (Hlast : last (undo_stack g)
                  = undo_stack gm !! (length (undo_stack gm) - S k)).
  { rewrite last_lookup, Hst, length_take, lookup_take_lt by lia.
    f_equal. lia. }
  destruct (lookup_lt_is_Some_2 (undo_stack gm)
              (length (undo_stack gm) - S k)) as [gs Hgs]; [lia|].
  unfold undo. rewrite Hlast, Hgs.
  cbn [undo_stack with_undo_stack with_state state]. split; [|done].
  rewrite Hst, length_take, take_take. f_equal. lia.
Qed.

(** A run of effective editing commands never leaves the loop. *)
Lemma all_mutating_loop inps gm s :
  all_mutating inps gm s = true →
  ∃ gm', game_loop inps gm s = Some (Continue gm' s).
Proof.
  revert gm. induction inps as [|inp rest IH]; intros gm;
    cbn [all_mutating game_loop].
  { intros _. by eexists. }
  intros [Hm Hrest]%andb_true_iff.
  destruct (mutating_step inp gm s Hm) as (gm1 & Hstep & _).
  rewrite Hstep in Hrest |- *. by apply IH.
Qed.

(** Property X14.  After at most 200 effective edits from an empty undo
    stack, the stack holds the states the edits started from, in order;
    [k] undos give back the state before the [k]-th last edit, and as
    many undos as there were edits give back the initial state and leave
    the stack empty. *)
Theorem undo_all_edits inps gm s :
  undo_stack gm = [] → all_mutating inps gm s = true →
  length inps ≤ 200 →
  ∃ gm', game_loop inps gm s = Some (Continue gm' s) ∧
  undo_stack gm' = states_before inps gm s ∧
  (∀ k, 1 ≤ k ≤ length inps →
     Some (state (Nat.iter k undo gm')) =
       states_before inps gm s !! (length inps - k)) ∧
  (inps ≠ [] → state (Nat.iter (length inps) undo gm') = state gm) ∧
  undo_stack (Nat.iter (length inps) undo gm') = [].
Proof.
  intros Hnil Hall Hlen.
  destruct (all_mutating_loop inps gm s Hall) as [gm' Hloop].
  exists gm'. split; [done|].
  remember (Continue gm' s) as o eqn:Ho.
  replace gm' with (game_of o) by by rewrite Ho.
  clear Ho gm'.
  destruct (game_loop_stack inps gm s o) as [Hlen' Hstack];
    [rewrite Hnil; simpl; lia|done..|].
  rewrite Hnil in Hstack. cbn [length app] in Hstack.
  replace (0 + length inps - 200) with 0 in Hstack by lia.
  rewrite drop_0 in Hstack.
  assert (Hl : length (undo_stack (game_of o)) = length inps) by congruence.
  split; [done|].
  assert (Hk : ∀ k, 1 ≤ k ≤ length inps →
     Some (state (Nat.iter k undo (game_of o))) =
       states_before inps gm s !! (length inps - k)).
  { intros k [Hk1 Hk2].
    destruct (undo_iter_stack k (game_of o)) as [_ Hstate]; [lia|].
    rewrite Hstate, Hl, Hstack by done. done. }
  split; [done|]. split.
  - intros Hne. specialize (Hk (length inps)).
    destruct inps as [|inp rest]; [done|].
    rewrite Nat.sub_diag in Hk. cbn [states_before lookup list_lookup] in Hk.
    assert (Heq : Some (state (Nat.iter (length (inp :: rest)) undo (game_of o)))
                  = Some (state gm)) by (apply Hk; simpl; lia).
    by injection Heq.
  - destruct (undo_iter_stack (length inps) (game_of o)) as [Hst _]; [lia|].
    rewrite Hst, Hl, Nat.sub_diag. done.
Qed.

Lemma game_step_left inp gm s :
  key inp = KEY_LEFT →
  game_step inp gm s =
    Some (Continue (with_cursor gm
            ((cursor gm).1, ((cursor gm).2 - 1) `mod` 9)%Z) s).
Proof. unfold game_step. intros ->. by destruct (cursor gm). Qed.

Lemma game_step_right inp gm s :
  key inp = KEY_RIGHT →
  game_step inp gm s =
    Some (Continue (with_cursor gm
            ((cursor gm).1, ((cursor gm).2 + 1) `mod` 9)%Z) s).
Proof. unfold game_step. intros ->. by destruct (cursor gm). Qed.

Lemma game_step_up inp gm s :
  key inp = KEY_UP →
  game_step inp gm s =
    Some (Continue (with_cursor gm
            (((cursor gm).1 - 1) `mod` 9, (cursor gm).2)%Z) s).
Proof. unfold game_step. intros ->. by destruct (cursor gm). Qed.

Lemma game_step_down inp gm s :
  key inp = KEY_DOWN →
  game_step inp gm s =
    Some (Continue (with_cursor gm
            (((cursor gm).1 + 1) `mod` 9, (cursor gm).2)%Z) s).
Proof. unfold game_step. intros ->. by destruct (cursor gm). Qed.

Lemma wrap9 (x : Z) :
  (0 ≤ x < 9)%Z →
  (((x - 1) `mod` 9 + 1) `mod` 9 = x ∧ ((x + 1) `mod` 9 - 1) `mod` 9 = x ∧
   (x - 1) `mod` 9 ≠ x ∧ (x + 1) `mod` 9 ≠ x ∧
   0 ≤ (x - 1) `mod` 9 < 9 ∧ 0 ≤ (x + 1) `mod` 9 < 9)%Z.
Proof.
  intros Hx.
  assert (x = 0 ∨ x = 1 ∨ x = 2 ∨ x = 3 ∨ x = 4 ∨ x = 5 ∨ x = 6 ∨ x = 7
          ∨ x = 8)%Z as Hcases by lia.
  repeat destruct Hcases as [->|Hcases]; [..|subst x]; by vm_compute.
Qed.

Lemma with_cursor_back gm cur :
  with_cursor (with_cursor gm cur) (cursor gm) = gm.
Proof. by destruct gm. Qed.

(** Property X15.  An arrow key moves the cursor to another cell of the
    board, wrapping around at the edges, and touches neither the state nor
    the undo stack; the opposite arrow key then gives back the game as it
    was. *)
Theorem arrows_wrap_and_invert inp inp' gm s :
  (0 ≤ (cursor gm).1 < 9)%Z → (0 ≤ (cursor gm).2 < 9)%Z →
  (key inp, key inp') ∈ [(KEY_LEFT, KEY_RIGHT); (KEY_RIGHT, KEY_LEFT);
                         (KEY_UP, KEY_DOWN); (KEY_DOWN, KEY_UP)] →
  ∃ gm1,
    game_step inp gm s = Some (Continue gm1 s) ∧
    (0 ≤ (cursor gm1).1 < 9)%Z ∧ (0 ≤ (cursor gm1).2 < 9)%Z ∧
    cursor gm1 ≠ cursor gm ∧
    state gm1 = state gm ∧ undo_stack gm1 = undo_stack gm ∧
    game_step inp' gm1 s = Some (Continue gm s).
Proof.
  intros Hr Hc Hkeys.
  destruct (wrap9 _ Hr) as (Hr1 & Hr2 & Hr3 & Hr4 & Hr5 & Hr6).
  destruct (wrap9 _ Hc) as (Hc1 & Hc2 & Hc3 & Hc4 & Hc5 & Hc6).
  assert (Hcur : cursor gm = ((cursor gm).1, (cursor gm).2)) by by destruct (cursor gm).
  repeat (apply elem_of_cons in Hkeys as [[= Hk Hk']|Hkeys]);
    [..|by apply elem_of_nil in Hkeys].
  - eexists. split; [by apply game_step_left|].
    cbn [cursor with_cursor state undo_stack fst snd].
    refine (conj Hr (conj Hc5 (conj _ (conj eq_refl (conj eq_refl _))))).
    + intros Heq. apply (f_equal snd) in Heq. cbn [fst snd] in Heq. done.
    + rewrite game_step_right by done. cbn [cursor with_cursor fst snd].
      rewrite Hc1, <-Hcur. by rewrite with_cursor_back.
  - eexists. split; [by apply game_step_right|].
    cbn [cursor with_cursor state undo_stack fst snd].
    refine (conj Hr (conj Hc6 (conj _ (conj eq_refl (conj eq_refl _))))).
    + intros Heq. apply (f_equal snd) in Heq. cbn [fst snd] in Heq. done.
    + rewrite game_step_left by done. cbn [cursor with_cursor fst snd].
      rewrite Hc2, <-Hcur. by rewrite with_cursor_back.
  - eexists. split; [by apply game_step_up|].
    cbn [cursor with_cursor state undo_stack fst snd].
    refine (conj Hr5 (conj Hc (conj _ (conj eq_refl (conj eq_refl _))))).
    + intros Heq. apply (f_equal fst) in Heq. cbn [fst snd] in Heq. done.
    + rewrite game_step_down by done. cbn [cursor with_cursor fst snd].
      rewrite Hr1, <-Hcur. by rewrite with_cursor_back.
  - eexists. split; [by apply game_step_down|].
    cbn [cursor with_cursor state undo_stack fst snd].
    refine (conj Hr6 (conj Hc (conj _ (conj eq_refl (conj eq_refl _))))).
    + intros Heq. apply (f_equal fst) in Heq. cbn [fst snd] in Heq. done.
    + rewrite game_step_up by done. cbn [cursor with_cursor fst snd].
      rewrite Hr2, <-Hcur. by rewrite with_cursor_back.
Qed.

End command_properties.

Lemma settings_loop_unchanged keys sel st :
  match settings_loop keys sel false st with
  | Returned changed st' _ => changed = false ∧ st' = st
  | Raises e => e = TypeError
  | Waiting _ changed st' => changed = false ∧ st' = st
  end.
Proof.
  revert sel. induction keys as [|ch rest IH]; intros sel; cbn [settings_loop].
  { done. }
  destruct (key_in ch [ord "q"; ord "Q"]); [done|].
  destruct (key_in ch [KEY_UP]); [apply IH|].
  destruct (key_in ch [KEY_DOWN]); [apply IH|]. done.
Qed.

Lemma settings_loop_walk pre k rest sel st :
  Forall (λ ch, is_menu_key ch = true ∧ is_quit_key ch = false) pre →
  ∃ sel', (0 ≤ sel → sel < 4 → 0 ≤ sel' < 4)%Z ∧
    settings_loop (pre ++ k :: rest) sel false st =
      settings_loop (k :: rest) sel' false st.
Proof.
  intros Hpre. revert sel.
  induction Hpre as [|ch pre [Hmenu Hquit] _ IH]; intros sel.
  { exists sel. split; [lia|done]. }
  cbn [app settings_loop]. unfold is_quit_key in Hquit. rewrite Hquit.
  unfold is_menu_key, key_in, existsb in Hmenu, Hquit |- *.
  destruct (ch =? ord "q")%Z; [done|]. destruct (ch =? ord "Q")%Z; [done|].
  cbn [orb] in Hmenu |- *.
  destruct (ch =? KEY_UP)%Z.
  - destruct (IH ((sel - 1) `mod` 4)%Z) as (sel' & Hb & ->).
    exists sel'. split; [|done]. intros. apply Hb; apply Z.mod_pos_bound; lia.
  - destruct (ch =? KEY_DOWN)%Z; [|done].
    destruct (IH ((sel + 1) `mod` 4)%Z) as (sel' & Hb & ->).
    exists sel'. split; [|done]. intros. apply Hb; apply Z.mod_pos_bound; lia.
Qed.

(** Property X16.  The settings dialog cannot change a setting (the
    drawing calls taken to succeed): whatever the keys, it never reports
    a change and never leaves other settings than it was given.  With a
    theme among the four known ones, as long as the keys are Up and Down
    it only moves the selection; Q then returns [False] with the settings
    as they were, and any other key, the arrows Left and Right and Enter
    included, raises [TypeError] at the test [ch in (curses.KEY_LEFT)]. *)
Theorem show_settings_changes_nothing keys st :
  match show_settings keys st with
  | Returned changed st' _ => changed = false ∧ st' = st
  | Raises _ => True
  | Waiting _ changed st' => changed = false ∧ st' = st
  end ∧
  (theme st ∈ themes →
   ∀ pre k rest,
     keys = pre ++ k :: rest →
     Forall (λ ch, is_menu_key ch = true ∧ is_quit_key ch = false) pre →
     (is_quit_key k = true → show_settings keys st = Returned false st rest) ∧
     (is_menu_key k = false → show_settings keys st = Raises TypeError)).
Proof.
  split.
  - unfold show_settings. destruct (index_of _ _); [|done].
    pose proof (settings_loop_unchanged keys 0 st) as Hl.
    by destruct (settings_loop keys 0 false st).
  - intros Hth pre k rest -> Hpre. unfold show_settings.
    assert (Hidx : is_Some (index_of (theme st) themes)).
    { unfold index_of. apply fmap_is_Some.
      apply list_elem_of_lookup in Hth as [i Hi].
      destruct (list_find (λ y, y = theme st) themes) as [[j y]|] eqn:Hf;
        [done|].
      apply list_find_None in Hf.
      by destruct (proj1 (Forall_forall _ _) Hf (theme st)
                     (list_elem_of_lookup_2 _ _ _ Hi)). }
    destruct Hidx as [i ->].
    destruct (settings_loop_walk pre k rest 0 st Hpre) as (sel' & _ & ->).
    cbn [settings_loop]. split.
    + unfold is_quit_key. by intros ->.
    + unfold is_menu_key, key_in, existsb.
      destruct (k =? ord "q")%Z; [done|]. destruct (k =? ord "Q")%Z; [done|].
      destruct (k =? KEY_UP)%Z; [done|]. destruct (k =? KEY_DOWN)%Z; [done|].
      done.
Qed.

Section search_order.
Implicit Types (g s t : Grid) (r c : nat) (n : Z).

Lemma find_first {A} (f : A → bool) (l : list A) x :
  find f l = Some x →
  ∃ i, l !! i = Some x ∧ ∀ j y, j < i → l !! j = Some y → f y = false.
Proof.
  induction l as [|a l IH]; [done|]. cbn [find].
  destruct (f a) eqn:Hfa.
  - intros [= ->]. exists 0. split; [done|]. lia.
  - intros Hf. destruct (IH Hf) as (i & Hi & Hbefore).
    exists (S i). split; [done|]. intros [|j] y Hj Hy.
    + by injection Hy as <-.
    + apply (Hbefore j); [lia|done].
Qed.

(** The cells the loops pass before the first empty one are filled. *)
Lemma find_empty_first g r c :
  find_empty g = Some (r, c) →
  ∃ i, all_cells !! i = Some (r, c) ∧
       ∀ j r' c', j < i → all_cells !! j = Some (r', c') →
                  r' < 9 ∧ c' < 9 ∧ cell g r' c' ≠ 0%Z.
Proof.
  intros Hf. apply find_first in Hf as (i & Hi & Hbefore).
  exists i. split; [done|]. intros j r' c' Hj Hlook.
  pose proof (list_elem_of_lookup_2 _ _ _ Hlook) as [Hr Hc]%elem_of_all_cells.
  split_and!; [done..|].
  apply Z.eqb_neq. by apply (Hbefore j (r', c')).
Qed.

Lemma sorted_bind {A B} (Q : A → A → Prop) (R : B → B → Prop)
    (f : A → list B) (l : list A) :
  StronglySorted Q l →
  (∀ x, x ∈ l → StronglySorted R (f x)) →
  (∀ x y a b, x ∈ l → y ∈ l → Q x y → a ∈ f x → b ∈ f y → R a b) →
  StronglySorted R (l ≫= f).
Proof.
  intros Hl. induction Hl as [|x l Hl IH Hx]; intros Hf Hcross.
  { constructor. }
  rewrite bind_cons.
  assert (Hrest : StronglySorted R (l ≫= f)).
  { apply IH.
    - intros y Hy. apply Hf. by right.
    - intros y z a b Hy Hz. apply Hcross; by right. }
  assert (Hhead : StronglySorted R (f x)) by (apply Hf; by left).
  assert (Hall : ∀ a b, a ∈ f x → b ∈ l ≫= f → R a b).
  { intros a b Ha (y & Hb & Hy)%list_elem_of_bind.
    apply (Hcross x y); [by left|by right| |done..].
    by apply (proj1 (Forall_forall _ _) Hx). }
  clear Hf Hcross IH. induction Hhead as [|a fa Hfa IHfa Ha]; [done|].
  cbn [app]. constructor.
  - apply IHfa. intros a' b Ha' Hb. apply Hall; [by right|done].
  - apply Forall_app. split; [done|].
    apply Forall_forall. intros b Hb. apply Hall; [by left|done].
Qed.

Lemma sorted_digits : StronglySorted Z.lt digits.
Proof. unfold digits. repeat constructor; lia. Qed.

(** [dfs] counts the completions in the order of the search. *)
Lemma completions_sorted k g :
  grid9 g → zeros g < k → StronglySorted search_lt (completions k g).
Proof.
  revert g. induction k as [|k IH]; intros g Hg Hk; [lia|].
  rewrite completions_S. destruct (find_empty g) as [[r c]|] eqn:Hf.
  2:{ repeat constructor. }
  destruct (find_empty_first g r c Hf) as (i & Hi & Hbefore).
  apply find_empty_Some in Hf as (Hr & Hc & Hz).
  assert (Hsub : ∀ n, valid g r c n = true →
    grid9 (set_cell g r c n) ∧ zeros (set_cell g r c n) < k ∧ n ≠ 0%Z).
  { intros n Hv.
    pose proof (valid_at_empty_nonzero g r c n Hr Hc Hz Hv) as Hn.
    pose proof (zeros_fill g r c n Hg Hr Hc Hz Hn).
    split_and!; [by apply grid9_set_cell|lia|done]. }
  apply (sorted_bind Z.lt); [apply sorted_digits| |].
  - intros n _. destruct (valid g r c n) eqn:Hv; [|constructor].
    destruct (Hsub n Hv) as (? & ? & _). by apply IH.
  - intros n1 n2 a b _ _ Hlt Ha Hb.
    destruct (valid g r c n1) eqn:Hv1; [|by apply elem_of_nil in Ha].
    destruct (valid g r c n2) eqn:Hv2; [|by apply elem_of_nil in Hb].
    destruct (Hsub n1 Hv1) as (Hg1 & Hk1 & Hn1).
    destruct (Hsub n2 Hv2) as (Hg2 & Hk2 & Hn2).
    apply (completions_spec k _ Hg1 Hk1) in Ha as (_ & Haga & _).
    apply (completions_spec k _ Hg2 Hk2) in Hb as (_ & Hagb & _).
    exists i, r, c. split; [done|]. split.
    + rewrite (Haga r c), (Hagb r c); rewrite ?cell_set_cell_eq; done.
    + intros j r' c' Hj Hlook.
      destruct (Hbefore j r' c' Hj Hlook) as (Hr' & Hc' & Hnz).
      assert (Hne : (r', c') ≠ (r, c)).
      { intros [= -> ->]. done. }
      rewrite (Haga r' c'), (Hagb r' c');
        rewrite ?cell_set_cell_ne; done.
Qed.

Lemma sorted_head {A} (R : A → A → Prop) (x : A) (l : list A) y :
  StronglySorted R (x :: l) → y ∈ x :: l → y = x ∨ R x y.
Proof.
  intros Hs [->|Hin]%elem_of_cons; [by left|right].
  apply StronglySorted_inv in Hs as [_ Hall].
  by apply (proj1 (Forall_forall _ _) Hall).
Qed.

End search_order.

(** Property X2.  Without [fill], [solve] draws nothing from the generator
    and, when the grid has a completion, leaves the least one: any other
    completion holds a larger digit at the first cell, row by row, where
    the two differ. *)
Theorem solve_ascending_least `{Random Rng} (g : Grid) (st : Rng) :
  grid9 g → consistent g → (∃ t, completion g t) →
  ∃ g', solve false g st = Some (true, g', st) ∧ completion g g' ∧
        ∀ t, completion g t → t = g' ∨ search_lt g' t.
Proof.
  intros Hg Hcons [t1 Ht1].
  pose proof (zeros_lt_max_depth g) as Hk.
  unfold solve. rewrite solve_at_first by done.
  destruct (completions_spec max_depth g Hg Hk) as [Hin _].
  pose proof (completions_sorted max_depth g Hg Hk) as Hsorted.
  destruct (completions max_depth g) as [|t0 l] eqn:Hl.
  { apply fills_completion, Hin in Ht1; [|done]. by apply elem_of_nil in Ht1. }
  exists t0. split; [done|].
  assert (Hg' : completion g t0).
  { apply fills_completion; [done|]. apply Hin. by left. }
  split; [done|]. intros t Ht.
  apply (sorted_head search_lt t0 l); [done|].
  apply Hin. by apply fills_completion.
Qed.

(** ** The statements at concrete inputs *)

Lemma valid_false_iff_occurs_witness :
  let g := set_cell empty_grid 0 0 5 in
  (valid g 0 0 5 = false ↔ occurs g 0 0 5) ∧
  (cell g 0 0 ≠ 5%Z → (valid g 0 0 5 = false ↔ occurs_elsewhere g 0 0 5)).
Proof.
  apply (valid_false_iff_occurs (set_cell empty_grid 0 0 5) 0 0 5).
  - by apply grid9_literal.
  - lia.
  - lia.
Defined.

Lemma grid9_demo_puzzle : grid9 demo_puzzle.
Proof. by apply grid9_literal. Qed.

Lemma consistent_demo_puzzle : consistent demo_puzzle.
Proof.
  apply (agrees_solved_consistent demo_puzzle first_solution).
  - apply solved_first_solution.
  - apply agrees_clear; [apply solved_first_solution|lia|lia|apply agrees_refl].
Qed.

Lemma unique_solution_iff_witness :
  unique_solution demo_puzzle = Some true ↔
  ∃ s, completion demo_puzzle s ∧ ∀ t, completion demo_puzzle t → t = s.
Proof.
  apply (unique_solution_iff demo_puzzle grid9_demo_puzzle consistent_demo_puzzle).
Defined.

Example unique_solution_demo : unique_solution demo_puzzle = Some true.
Proof. by vm_compute. Qed.

Example unique_solution_stuck : unique_solution stuck = Some false.
Proof. by vm_compute. Qed.

Lemma generate_sudoku_clues_witness :
  (∃ puz sol removed s',
     generate_sudoku_run (H := ascending) 35 tt = Some (puz, sol, removed, s') ∧
     (0 ≤ removed ≤ Z.max 0 (81 - 35))%Z ∧
     Z.of_nat (clues puz) = (81 - removed)%Z ∧
     (Z.min 81 35 ≤ Z.of_nat (clues puz))%Z) ∧
  default_num_clues = 35%Z ∧
  call_generate_sudoku (H := ascending) None tt =
    generate_sudoku (H := ascending) 35 tt.
Proof. apply (generate_sudoku_clues (H := ascending) 35 tt ascending_laws). Defined.

Lemma generate_sudoku_zeroed_witness :
  ∃ puz sol removed s',
    generate_sudoku_run (H := descending) 35 tt = Some (puz, sol, removed, s') ∧
    Z.of_nat (zeros puz) = removed ∧
    Z.of_nat (clues puz) = (81 - removed)%Z ∧
    (removed ≤ Z.max 0 (81 - 35))%Z.
Proof. apply (generate_sudoku_zeroed (H := descending) 35 tt descending_laws). Defined.

Example generate_sudoku_80 :
  generate_sudoku (H := ascending) 80 tt = Some (demo_puzzle, first_solution, tt).
Proof. by vm_compute. Qed.

Lemma cursor_ok_demo cur :
  (0 ≤ cur.1 < 9)%Z → (0 ≤ cur.2 < 9)%Z →
  cursor_ok (with_cursor (fresh_game demo_state) cur).
Proof.
  intros Hr Hc. split; [|done]. split; [done|]. simpl. repeat constructor.
Qed.

Lemma fixed_cell_immutable_witness :
  let gm := with_cursor (fresh_game demo_state) (0, 1)%Z in
  (commit_pencil gm = gm ∧ clear gm = gm ∧ place (ord "7") gm = gm) ∧
  game_step (H := ascending) (press (ord "7")) gm tt = Some (Continue gm tt).
Proof.
  apply (fixed_cell_immutable (H := ascending) (press (ord "7"))
           (with_cursor (fresh_game demo_state) (0, 1)%Z) tt).
  - apply cursor_ok_demo; simpl; lia.
  - reflexivity.
  - reflexivity.
Defined.

Lemma place_undo_roundtrip_witness :
  let gm := fresh_game demo_state in
  ∃ gm1 gm2,
    game_step (H := ascending) (press (ord "7")) gm tt = Some (Continue gm1 tt) ∧
    cursor_cell gm1 = mkCell (ord "7" - ord "0") false 0 ∧
    moves (state gm1) = (moves (state gm) + 1)%Z ∧
    game_step (H := ascending) (press (ord "u")) gm1 tt = Some (Continue gm2 tt) ∧
    state gm2 = state gm.
Proof.
  apply (place_undo_roundtrip (H := ascending) (press (ord "7"))
           (press (ord "u")) (fresh_game demo_state) tt).
  - apply (cursor_ok_demo (0, 0)%Z); simpl; lia.
  - reflexivity.
  - reflexivity.
  - reflexivity.
Defined.

Lemma undo_history_bounded_witness :
  let inps := replicate 205 (press (ord "5")) in
  let gm := fresh_game demo_state in
  ∃ o, game_loop (H := ascending) inps gm tt = Some o ∧
    length (undo_stack (game_of o)) = 200 ∧
    undo_stack (game_of o) = drop 5 (states_before (H := ascending) inps gm tt) ∧
    undo (Nat.iter 200 undo (game_of o)) = Nat.iter 200 undo (game_of o).
Proof.
  intros inps gm.
  assert (Hrun : ∃ o, game_loop (H := ascending) inps gm tt = Some o).
  { vm_compute. eexists. reflexivity. }
  destruct Hrun as [o Ho]. exists o. split; [exact Ho|].
  destruct (undo_history_bounded (H := ascending) inps gm tt o eq_refl Ho)
    as (_ & Hmut & _).
  destruct Hmut as [_ H205]; [by vm_compute|].
  destruct H205 as (Hlen & Hstack & _ & Hnoop); [reflexivity|].
  split; [exact Hlen|]. split; [exact Hstack|exact Hnoop].
Defined.

Example is_complete_demo :
  is_complete demo_state = false ∧
  is_complete (state (place (ord "1") (fresh_game demo_state))) = true.
Proof. by vm_compute. Qed.

(** ** The further statements at concrete inputs *)

Lemma completion_demo : completion demo_puzzle first_solution.
Proof.
  split; [apply solved_first_solution|].
  apply agrees_clear; [apply solved_first_solution|lia|lia|apply agrees_refl].
Qed.

Lemma session_ok_demo : session_ok demo_state.
Proof.
  apply (generated_session demo_state demo_puzzle first_solution 1).
  - split; [apply solved_first_solution|].
    split; [apply grid9_demo_puzzle|].
    split; [apply completion_demo|].
    split; [by vm_compute|]. split; [by vm_compute|].
    unfold default_num_clues. lia.
  - done.
  - done.
  - split; [done|]. simpl. repeat constructor.
  - intros r c Hr Hc.
    do 9 (destruct r as [|r]; [do 9 (destruct c as [|c]; [by vm_compute|]); lia|]).
    lia.
Qed.

Lemma game_ok_demo cur :
  (0 ≤ cur.1 < 9)%Z → (0 ≤ cur.2 < 9)%Z →
  game_ok (with_cursor (fresh_game demo_state) cur).
Proof.
  intros Hr Hc.
  exact (conj Hr (conj Hc (conj session_ok_demo (Forall_nil_2 _)))).
Qed.

Lemma game_ok_fresh_demo : game_ok (fresh_game demo_state).
Proof. apply (game_ok_demo (0, 0)%Z); simpl; lia. Qed.

Lemma consistent_empty : consistent empty_grid.
Proof. intros r c _ _ Hnz. by rewrite cell_empty in Hnz. Qed.

Lemma completion_empty : completion empty_grid first_solution.
Proof.
  split; [apply solved_first_solution|].
  intros r c _ _ Hnz. by rewrite cell_empty in Hnz.
Qed.

Lemma solve_sound_complete_witness :
  ∃ b g' st',
    solve (H := ascending) false demo_puzzle tt = Some (b, g', st') ∧
    (b = true ↔ ∃ t, completion demo_puzzle t) ∧
    (b = true → completion demo_puzzle g').
Proof.
  apply (solve_sound_complete (H := ascending) false demo_puzzle tt
           ascending_laws grid9_demo_puzzle consistent_demo_puzzle).
Defined.

Lemma solve_ascending_least_witness :
  ∃ g', solve (H := descending) false empty_grid tt = Some (true, g', tt) ∧
        completion empty_grid g' ∧
        ∀ t, completion empty_grid t → t = g' ∨ search_lt g' t.
Proof.
  apply (solve_ascending_least (H := descending) empty_grid tt
           grid9_empty consistent_empty).
  exists first_solution. apply completion_empty.
Defined.

Lemma dfs_counts_completions_witness :
  ∃ l, NoDup l ∧ (∀ s, s ∈ l ↔ fills stuck s) ∧
       (consistent stuck → ∀ s, s ∈ l ↔ completion stuck s) ∧
       dfs max_depth (stuck, 7%Z) = Some (stuck, (7 + Z.of_nat (length l))%Z) ∧
       unique_solution stuck = Some (bool_decide (length l = 1)).
Proof.
  apply (dfs_counts_completions stuck 7).
  by apply grid9_literal.
Defined.

Lemma generate_sudoku_solution_units_witness :
  ∃ puz sol st',
    generate_sudoku (H := descending) 35 tt = Some (puz, sol, st') ∧
    (∀ r, r < 9 → values sol (row_cells r) ≡ₚ digits) ∧
    (∀ c, c < 9 → values sol (col_cells c) ≡ₚ digits) ∧
    (∀ br bc, br < 3 → bc < 3 → values sol (box_cells br bc) ≡ₚ digits).
Proof.
  apply (generate_sudoku_solution_units (H := descending) 35 tt descending_laws).
Defined.

Lemma generate_sudoku_minimal_witness :
  ∃ puz sol removed st',
    generate_sudoku_run (H := descending) 0 tt = Some (puz, sol, removed, st') ∧
    (removed < 81 - 0)%Z ∧
    ∀ r c, r < 9 → c < 9 → cell puz r c ≠ 0%Z →
      unique_solution (set_cell puz r c 0) = Some false.
Proof.
  destruct (generate_sudoku_minimal (H := descending) 0 tt descending_laws)
    as (puz & sol & removed & st' & Hrun & Hmin).
  assert (Hval : ∃ p s, generate_sudoku_run (H := descending) 0 tt
                        = Some (p, s, 48%Z, tt)).
  { vm_compute. eexists _, _. reflexivity. }
  destruct Hval as (p & s & Hval).
  assert (Hrem : removed = 48%Z) by congruence.
  exists puz, sol, removed, st'. split; [exact Hrun|].
  assert (Hlt : (removed < 81 - 0)%Z) by (rewrite Hrem; reflexivity).
  split; [exact Hlt|exact (Hmin Hlt)].
Defined.

Lemma generate_sudoku_removes_one_witness :
  ∃ puz sol removed st',
    generate_sudoku_run (H := ascending) 80 tt = Some (puz, sol, removed, st') ∧
    (1 ≤ removed)%Z ∧ (Z.of_nat (clues puz) ≤ 80)%Z.
Proof.
  apply (generate_sudoku_removes_one (H := ascending) 80 tt ascending_laws).
  lia.
Defined.

Lemma is_complete_iff_solved_witness :
  let gs := state (place (ord "1") (fresh_game demo_state)) in
  (is_complete gs = true ↔ board gs = solution gs) ∧
  (is_complete gs = true ↔ solved (board gs)).
Proof.
  apply (is_complete_iff_solved
           (state (place (ord "1") (fresh_game demo_state)))).
  apply (game_ok_place (ord "1") (fresh_game demo_state) game_ok_fresh_demo).
Defined.

Lemma new_game_fresh_witness :
  ∃ gs s',
    new_game (H := ascending) 0%float tt = Some (gs, s') ∧
    session_ok gs ∧ game_ok (fresh_game gs) ∧
    moves gs = 0%Z ∧ start_time gs = 0%float ∧
    (∀ r c, r < 9 → c < 9 →
       value (scell gs r c) = cell (puzzle gs) r c ∧
       pencil (scell gs r c) = 0%Z ∧
       (fixed (scell gs r c) = true ↔ cell (puzzle gs) r c ≠ 0%Z)) ∧
    35 ≤ clues (puzzle gs) ≤ 80 ∧
    is_complete gs = false.
Proof. apply (new_game_fresh (H := ascending) 0%float tt ascending_laws). Defined.


Lemma new_game_key_resets_witness :
  let gm := place (ord "5") (fresh_game demo_state) in
  ∃ gm' s',
    game_step (H := ascending) (press (ord "N")) gm tt = Some (Continue gm' s') ∧
    undo_stack gm' = [] ∧ undo gm' = gm' ∧
    cursor gm' = cursor gm ∧ settings gm' = settings gm ∧
    session_ok (state gm') ∧
    moves (state gm') = 0%Z ∧ start_time (state gm') = clock (press (ord "N")) ∧
    is_complete (state gm') = false.
Proof.
  apply (new_game_key_resets (H := ascending) (press (ord "N"))
           (place (ord "5") (fresh_game demo_state)) tt ascending_laws).
  reflexivity.
Defined.

Lemma hint_then_commit_witness :
  let gm := fresh_game demo_state in
  ∃ r c gm' s',
    hint (H := ascending) gm tt = (gm', s') ∧ r < 9 ∧ c < 9 ∧
    scell (state gm) r c = mkCell 0 false (pencil (scell (state gm) r c)) ∧
    cursor gm' = (Z.of_nat r, Z.of_nat c) ∧
    cursor_cell gm' = mkCell 0 false (cell (solution (state gm)) r c) ∧
    (∀ r' c', (r', c') ≠ (r, c) →
       scell (state gm') r' c' = scell (state gm) r' c') ∧
    moves (state gm') = moves (state gm) ∧
    undo_stack gm' = undo_stack gm ∧
    cursor_cell (commit_pencil gm') =
      mkCell (cell (solution (state gm)) r c) false 0 ∧
    cell (solution (state gm)) r c ≠ 0%Z ∧
    moves (state (commit_pencil gm')) = (moves (state gm) + 1)%Z.
Proof.
  apply (hint_then_commit (H := ascending) (fresh_game demo_state) tt
           ascending_laws game_ok_fresh_demo eq_refl).
  exists 0, 0. split; [lia|]. split; [lia|]. split; reflexivity.
Defined.

Lemma hint_frame_witness :
  let gm := fresh_game demo_state in
  let gm' := (hint (H := ascending) gm tt).1 in
  moves (state gm') = moves (state gm) ∧
  undo_stack gm' = undo_stack gm ∧
  same_game (state gm) (state gm') ∧
  (∀ r c, value (scell (state gm') r c) = value (scell (state gm) r c)
          ∧ fixed (scell (state gm') r c) = fixed (scell (state gm) r c)) ∧
  (show_hints (settings gm) = false →
     state gm' = state gm ∧ cursor gm' = cursor gm).
Proof. apply (hint_frame (H := ascending) (fresh_game demo_state) tt). Defined.

Lemma hint_exhausted_witness :
  let gm := place (ord "5") (fresh_game demo_state) in
  is_complete (state gm) = false ∧
  (hint (H := ascending) gm tt
     = (with_status gm "No hints: puzzle already complete!", tt) ↔
   ∀ r c, r < 9 → c < 9 → value (scell (state gm) r c) ≠ 0%Z).
Proof.
  split; [reflexivity|].
  apply (hint_exhausted (H := ascending)
           (place (ord "5") (fresh_game demo_state)) tt).
  - apply (game_ok_place (ord "5") (fresh_game demo_state) game_ok_fresh_demo).
  - reflexivity.
Defined.

Lemma undo_all_edits_witness :
  let inps := [press (ord "5"); press (ord "7"); press (ord "0")] in
  let gm := fresh_game demo_state in
  ∃ gm', game_loop (H := ascending) inps gm tt = Some (Continue gm' tt) ∧
  undo_stack gm' = states_before (H := ascending) inps gm tt ∧
  (∀ k, 1 ≤ k ≤ length inps →
     Some (state (Nat.iter k undo gm')) =
       states_before (H := ascending) inps gm tt !! (length inps - k)) ∧
  (inps ≠ [] → state (Nat.iter (length inps) undo gm') = state gm) ∧
  undo_stack (Nat.iter (length inps) undo gm') = [].
Proof.
  apply (undo_all_edits (H := ascending)
           [press (ord "5"); press (ord "7"); press (ord "0")]
           (fresh_game demo_state) tt).
  - reflexivity.
  - by vm_compute.
  - simpl. lia.
Defined.

Lemma arrows_wrap_and_invert_witness :
  let gm := fresh_game demo_state in
  ∃ gm1,
    game_step (H := ascending) (press KEY_LEFT) gm tt = Some (Continue gm1 tt) ∧
    (0 ≤ (cursor gm1).1 < 9)%Z ∧ (0 ≤ (cursor gm1).2 < 9)%Z ∧
    cursor gm1 ≠ cursor gm ∧
    state gm1 = state gm ∧ undo_stack gm1 = undo_stack gm ∧
    game_step (H := ascending) (press KEY_RIGHT) gm1 tt = Some (Continue gm tt).
Proof.
  apply (arrows_wrap_and_invert (H := ascending) (press KEY_LEFT)
           (press KEY_RIGHT) (fresh_game demo_state) tt).
  - simpl. lia.
  - simpl. lia.
  - by left.
Defined.

Lemma show_settings_changes_nothing_witness :
  let st := mkSettings "green" false true false in
  show_settings [KEY_DOWN; KEY_RIGHT] st = Raises TypeError ∧
  show_settings [KEY_UP; ord "q"; ord "5"] st = Returned false st [ord "5"].
Proof.
  intros st. split.
  - destruct (show_settings_changes_nothing [KEY_DOWN; KEY_RIGHT] st)
      as [_ Hkeys].
    assert (Hth : theme st ∈ themes) by (right; right; by left).
    destruct (Hkeys Hth [KEY_DOWN] KEY_RIGHT [] eq_refl) as [_ Hother].
    { repeat constructor. }
    apply Hother. reflexivity.
  - destruct (show_settings_changes_nothing [KEY_UP; ord "q"; ord "5"] st)
      as [_ Hkeys].
    assert (Hth : theme st ∈ themes) by (right; right; by left).
    destruct (Hkeys Hth [KEY_UP] (ord "q") [ord "5"] eq_refl) as [Hquit _].
    { repeat constructor. }
    apply Hquit. reflexivity.
Defined.
